(** * OOI carbonate notebooks: deployment trimming and priority merge

    A shallow embedding of the two pieces of data logic found in the
    notebooks:

    - [trim_overlaps] (Downloading_Data.ipynb, cell c9a1c70d): the deployment
      table is sorted, every recorded [deployEnd] that runs past the next
      deployment's [deployStart] is clipped to it, and a dataset is cut down
      to the time range of its deployment;
    - the merge cells of the second download notebook (cells 2c28bb44,
      05abe482, a14fbb19, d5943734): the telemetered, recovered_host and
      recovered_inst datasets are given the same variables and are then
      combined with [combine_first].

    The pandas / numpy / xarray primitives the notebooks call are modelled by
    small executable functions named after them (pandas from 1.0 on, where a
    list lookup with a missing label is a [KeyError]). *)

From stdpp Require Import gmap strings list sorting.

Local Open Scope Z_scope.

(** ** Errors raised by the library calls *)

(** [KeyError] is what [DataFrame.loc] raises for a label that is not in the
    index; [IndexError] is what [values[0]] raises on an empty array.
    [EmptySourceSetError] belongs to the merge of a list of sources, which
    the notebooks only call. *)
Inductive error : Set :=
  | KeyError
  | IndexError
  | EmptySourceSetError.

Inductive Result (A : Type) : Type :=
  | Ok (a : A)
  | Err (e : error).
Arguments Ok {A} a.
Arguments Err {A} e.

(** An exception ends the computation; [x ← r; k] is stdpp's bind notation. *)
Global Instance Result_bind : MBind Result := λ A B k r,
  match r with
  | Ok a => k a
  | Err e => Err e
  end.

(** ** Timestamps *)

(** The number of days from 1970-01-01 to a calendar date. *)
Definition days_from_civil (y m d : Z) : Z :=
  let y' := if m <=? 2 then y - 1 else y in
  let era := y' `div` 400 in
  let yoe := y' - era * 400 in
  let mp := (m + 9) `mod` 12 in
  let doy := (153 * mp + 2) `div` 5 + d - 1 in
  let doe := yoe * 365 + yoe `div` 4 - yoe `div` 100 + doy in
  era * 146097 + doe - 719468.

(** [pd.Timestamp(y, m, d)] as a [datetime64[ns]] value: nanoseconds since
    1970-01-01. *)
Definition Timestamp (y m d : Z) : Z := days_from_civil y m d * 86400000000000.

(** ** The deployment table *)

(** A row of the [deployments] frame, with its end recorded. *)
Record Deployment : Set := mkDeployment {
  deploymentNumber : Z;
  deployStart : Z;
  deployEnd : Z
}.

Global Instance Deployment_eq_dec : EqDecision Deployment.
Proof. solve_decision. Defined.

Definition with_deployEnd (r : Deployment) (e : Z) : Deployment :=
  {| deploymentNumber := deploymentNumber r; deployStart := deployStart r; deployEnd := e |}.

(** [deployments.sort_values(by="deploymentNumber")]: rows in ascending order
    of their number; rows with equal numbers keep their relative order. *)
Fixpoint insert_row (r : Deployment) (rows : list Deployment) : list Deployment :=
  match rows with
  | [] => [r]
  | r' :: rows' =>
      if deploymentNumber r <=? deploymentNumber r' then r :: rows
      else r' :: insert_row r rows'
  end.

Definition sort_values (deployments : list Deployment) : list Deployment :=
  foldr insert_row [] deployments.

(** [series.shift(-1)]: every entry moves one place up, the last place is
    left without a value ([None] stands for NaT). *)
Definition shift_neg1 (s : list Z) : list (option Z) :=
  match s with
  | [] => []
  | _ :: s' => (Some <$> s') ++ [None]
  end.

(** [deployments["deployEnd"] > deployEnd]: elementwise, and false wherever
    the right-hand side has no value. *)
Definition series_gt (s : list Z) (shifted : list (option Z)) : list bool :=
  zip_with (λ e o, match o with Some x => x <? e | None => false end) s shifted.

(** [s[mask] = other[mask]]: rows picked by the mask take the other series'
    value, the rest keep theirs. *)
Fixpoint setitem_mask (s : list Z) (mask : list bool) (other : list (option Z)) : list Z :=
  match s, mask, other with
  | e :: s', m :: mask', o :: other' =>
      (if m then default e o else e) :: setitem_mask s' mask' other'
  | _, _, _ => s
  end.

(** Lines 415-423 of [trim_overlaps]: the table with its clipped ends. The
    assignment through [deployments["deployEnd"][mask]] writes into the
    sorted frame, and [pd.to_datetime] on line 423 leaves a timestamp as it
    is. *)
Definition clip_deployEnd (deployments : list Deployment) : list Deployment :=
  let deployments := sort_values deployments in
  let deployEnd' := shift_neg1 (deployStart <$> deployments) in
  let mask := series_gt (deployEnd <$> deployments) deployEnd' in
  zip_with with_deployEnd deployments
    (setitem_mask (deployEnd <$> deployments) mask deployEnd').

(** [deployments.loc[labels]]: the rows of every label, in the order of the
    labels; one label without a row makes the whole lookup a [KeyError]. *)
Fixpoint loc (deployments : list Deployment) (labels : list Z) : Result (list Deployment) :=
  match labels with
  | [] => Ok []
  | k :: labels' =>
      match filter (λ r, deploymentNumber r = k) deployments with
      | [] => Err KeyError
      | found => rest ← loc deployments labels' ; Ok (found ++ rest)
      end
  end.

(** [frame[...].values[0]] *)
Definition values0 {A} (rows : list A) : Result A :=
  match rows with
  | [] => Err IndexError
  | r :: _ => Ok r
  end.

(** The rule for the end of the interval a deployment owns: its recorded
    end, unless that runs past the start of the next deployment, which then
    takes its place. *)
Definition effectiveEnd (r : Deployment) (next : option Deployment) : Z :=
  match next with
  | None => deployEnd r
  | Some n => if deployEnd r <=? deployStart n then deployEnd r else deployStart n
  end.

(** The bounds [trim_overlaps] reads for deployment [d]: start and clipped
    end of the first row of the table that carries the number. *)
Definition owned_interval (deployments : list Deployment) (d : Z) : option (Z * Z) :=
  (λ r, (deployStart r, deployEnd r))
    <$> head (filter (λ r, deploymentNumber r = d) (clip_deployEnd deployments)).

(** ** Datasets cut by [trim_overlaps] *)

(** [np.unique]: the distinct values in ascending order. *)
Fixpoint insert_unique (x : Z) (l : list Z) : list Z :=
  match l with
  | [] => [x]
  | y :: l' =>
      if x <? y then x :: l
      else if x =? y then l
      else y :: insert_unique x l'
  end.

Definition np_unique (l : list Z) : list Z := foldr insert_unique [] l.

(** [index.searchsorted(label, side)] on a monotonic index: the number of
    leading entries that are smaller than (left) or at most (right) the
    label. *)
Fixpoint searchsorted_left (a : Z) (index : list Z) : nat :=
  match index with
  | [] => 0%nat
  | t :: index' => if t <? a then S (searchsorted_left a index') else 0%nat
  end.

Fixpoint searchsorted_right (b : Z) (index : list Z) : nat :=
  match index with
  | [] => 0%nat
  | t :: index' => if t <=? b then S (searchsorted_right b index') else 0%nat
  end.

Section Samples.
(** What a sample holds besides its time and deployment tag. *)
Context {V : Type}.

(** A dataset along [time] is kept as its rows, in index order: the time
    label, the value of the [deployment] variable and the values of all
    other variables of that row. *)
Record Sample : Type := mkSample {
  time : Z;
  deployment : Z;
  obs : V
}.

(** [ds.sel(time=slice(start, stop))] on a dataset whose time index is
    monotonic increasing: the rows from position
    [searchsorted(start, "left")] up to [searchsorted(stop, "right")],
    so both end labels are part of the selection. *)
Definition sel_time (ds : list Sample) (start stop : Z) : list Sample :=
  let lo := searchsorted_left start (time <$> ds) in
  let hi := searchsorted_right stop (time <$> ds) in
  take (hi - lo)%nat (drop lo ds).

Definition trim_overlaps (ds : list Sample) (deployments : list Deployment)
    : Result (list Sample) :=
  let deployments := clip_deployEnd deployments in
  let depNum := np_unique (deployment <$> ds) in
  deployInfo ← loc deployments depNum ;
  deployStart' ← values0 (deployStart <$> deployInfo) ;
  deployEnd' ← values0 (deployEnd <$> deployInfo) ;
  Ok (sel_time ds deployStart' deployEnd').

(** The time index is monotonic increasing. *)
Definition monotonic (ds : list Sample) : Prop :=
  StronglySorted Z.le (time <$> ds).

(** The closed time range [start .. stop]. *)
Definition between (start stop : Z) (s : Sample) : Prop :=
  start ≤ time s ∧ time s ≤ stop.

Global Instance between_dec start stop s : Decision (between start stop s).
Proof. unfold between. apply _. Defined.
End Samples.
Arguments Sample V : clear implicits.

(** ** Datasets combined by the merge cells *)

Section Datasets.
(** The type of a measured value; a cell without a value (NaN) is a missing
    key of the column. *)
Context {V : Type}.

(** A variable taken out of a dataset: its values along its own time
    index. *)
Record DataArray : Type := mkDataArray {
  da_index : gset Z;
  da_values : gmap Z V
}.

(** An [xarray.Dataset] whose variables all run along [time]: the labels of
    the time index and the column of every variable other than the index
    itself (which every dataset has, so no loop below ever copies it). *)
Record Dataset : Type := mkDataset {
  time_index : gset Z;
  variables : gmap string (gmap Z V)
}.

(** The value of variable [var] at time [t], if there is one. *)
Definition cell (ds : Dataset) (var : string) (t : Z) : option V :=
  variables ds !! var ≫= (.!! t).

(** Every column lives on the time index of its dataset. *)
Definition well_formed (ds : Dataset) : Prop :=
  map_Forall (λ _ col, dom col ⊆ time_index ds) (variables ds).

(** [da.broadcast_like(other["time"])]: an outer join of the two indexes;
    the labels that are new to [da] carry no value. *)
Definition broadcast_like (da : DataArray) (other : gset Z) : DataArray :=
  {| da_index := da_index da ∪ other; da_values := da_values da |}.

(** [ds[var] = da]: the array is reindexed to the dataset's own time index
    and stored under [var] in the dataset itself. *)
Definition setitem (ds : Dataset) (var : string) (da : DataArray) : Dataset :=
  {| time_index := time_index ds;
     variables :=
       <[var := filter (λ kv, kv.1 ∈ time_index ds) (da_values da)]> (variables ds) |}.

(** One alignment loop of the notebook:
<<
    for var in donor.variables:
        if var not in target.variables:
            target[var] = donor[var].broadcast_like(target["time"])
>>
    The result is the state of [target] after the loop. The loop writes
    each missing name once, so the order of the iteration is immaterial. *)
Definition broadcast_missing (donor target : Dataset) : Dataset :=
  map_fold
    (λ var col target,
       match variables target !! var with
       | Some _ => target
       | None =>
           setitem target var
             (broadcast_like {| da_index := time_index donor; da_values := col |}
                (time_index target))
       end)
    target (variables donor).

(** [self.combine_first(other)]: outer join of the time indexes and of the
    variables; a cell takes the value of [self] and, where [self] has none,
    the value of [other]. The result is a new dataset. *)
Definition combine_first (self other : Dataset) : Dataset :=
  {| time_index := time_index self ∪ time_index other;
     variables :=
       union_with (λ c1 c2, Some (c1 ∪ c2)) (variables self) (variables other) |}.

(** The three datasets the notebook holds when the merge cells run. They are
    the objects returned by [open_datasets]; the alignment loops write into
    them. *)
Record Workspace : Type := mkWorkspace {
  tele_data : Dataset;
  host_data : Dataset;
  inst_data : Dataset
}.

(** Cells 2c28bb44, 05abe482, a14fbb19 and d5943734 run in order: the state
    of the three datasets afterwards, and the value bound to [data]. *)
Definition merge (w : Workspace) : Workspace * Dataset :=
  let host_data' := broadcast_missing (tele_data w) (host_data w) in
  let tele_data' := broadcast_missing host_data' (tele_data w) in
  let tele_host := combine_first tele_data' host_data' in
  let inst_data' := broadcast_missing tele_host (inst_data w) in
  let tele_host' := broadcast_missing inst_data' tele_host in
  let data := combine_first inst_data' tele_host' in
  ({| tele_data := tele_data'; host_data := host_data'; inst_data := inst_data' |},
   data).

(** The donor of an alignment loop that an exception broke off: only the
    variables in [done] have been visited. *)
Definition only_variables (done : gset string) (donor : Dataset) : Dataset :=
  {| time_index := time_index donor;
     variables := filter (λ kv, kv.1 ∈ done) (variables donor) |}.

(** The place at which a library call of the merge cells raises: in one of
    the four alignment loops, after the loop has visited the variables in
    [done], or in one of the two [combine_first] calls. *)
Inductive Raised : Type :=
  | InLoop1 (done : gset string)
  | InLoop2 (done : gset string)
  | InCombine1
  | InLoop3 (done : gset string)
  | InLoop4 (done : gset string)
  | InCombine2.

(** The exception is raised after cell 2c28bb44 has run through. *)
Definition after_first_cell (r : Raised) : bool :=
  match r with
  | InLoop1 _ | InLoop2 _ => false
  | InCombine1 | InLoop3 _ | InLoop4 _ | InCombine2 => true
  end.

(** The same four cells in a run in which the call at [raised], if any,
    raises. The cells before it have run and nothing catches the exception:
    the three datasets stay as the assignments before the failing call left
    them, and [data] is not bound. [tele_host] is a name of the notebook, not
    one of the three datasets. *)
Definition merge_until (raised : option Raised) (w : Workspace)
    : Workspace * option Dataset :=
  let host_data' := broadcast_missing (tele_data w) (host_data w) in
  let tele_data' := broadcast_missing host_data' (tele_data w) in
  let tele_host := combine_first tele_data' host_data' in
  let inst_data' := broadcast_missing tele_host (inst_data w) in
  let tele_host' := broadcast_missing inst_data' tele_host in
  match raised with
  | Some (InLoop1 done) =>
      ({| tele_data := tele_data w;
          host_data := broadcast_missing (only_variables done (tele_data w)) (host_data w);
          inst_data := inst_data w |}, None)
  | Some (InLoop2 done) =>
      ({| tele_data := broadcast_missing (only_variables done host_data') (tele_data w);
          host_data := host_data';
          inst_data := inst_data w |}, None)
  | Some InCombine1 =>
      ({| tele_data := tele_data'; host_data := host_data'; inst_data := inst_data w |},
       None)
  | Some (InLoop3 done) =>
      ({| tele_data := tele_data';
          host_data := host_data';
          inst_data := broadcast_missing (only_variables done tele_host) (inst_data w) |},
       None)
  | Some (InLoop4 _) | Some InCombine2 =>
      ({| tele_data := tele_data'; host_data := host_data'; inst_data := inst_data' |},
       None)
  | None =>
      ({| tele_data := tele_data'; host_data := host_data'; inst_data := inst_data' |},
       Some (combine_first inst_data' tele_host'))
  end.

(** [b] has a value wherever [a] has one: the time index of [a] is part of
    that of [b], and every variable of [a] is a variable of [b] whose column
    has a value at each timestamp at which the column of [a] has one. *)
Definition covers (b a : Dataset) : Prop :=
  time_index a ⊆ time_index b ∧
  map_Forall
    (λ var col,
       is_Some (variables b !! var) ∧
       dom col ⊆ default ∅ (dom <$> variables b !! var))
    (variables a).

(** The first value among [o1], [o2]. *)
Definition fill (o1 o2 : option V) : option V :=
  match o1 with
  | Some x => Some x
  | None => o2
  end.

(** Modelled from the spec: step 1 of the merge of a list of sources, whose
    body ([combine_datasets] of ooi_data_explorations.combine_data) the
    notebook Downloading_Data.ipynb only calls. Every source gets the union
    of the variable names; a synthesised variable is missing everywhere. *)
Definition align_all (sources : list Dataset) : list Dataset :=
  let names := foldr (λ ds acc, dom (variables ds) ∪ acc) (∅ : gset string) sources in
  (λ ds, {| time_index := time_index ds;
            variables := variables ds ∪ gset_to_gmap (∅ : gmap Z V) names |})
    <$> sources.

(** Modelled from the spec: step 2 of that merge. The sources come highest
    priority first; the fold starts from the lowest-priority source and
    overlays each higher one, whose values win where it has any. *)
Fixpoint overlay_all (top : Dataset) (lower : list Dataset) : Dataset :=
  match lower with
  | [] => top
  | next :: lower' => combine_first top (overlay_all next lower')
  end.

(** Modelled from the spec: the merge of that absent [combine_datasets]. An
    empty list of sources is an error. A time index is a set here, so it has
    no order that could be violated. *)
Definition merge_sources (sources : list Dataset) : Result Dataset :=
  match align_all sources with
  | [] => Err EmptySourceSetError
  | top :: lower => Ok (overlay_all top lower)
  end.
End Datasets.
Arguments DataArray V : clear implicits.
Arguments Dataset V : clear implicits.
Arguments Workspace V : clear implicits.

(** ** Example data *)

(** Deployment 1 is recorded until 2017-05-01 although Deployment 2 starts
    on 2017-04-20. *)
Definition ex_overlap : list Deployment :=
  [mkDeployment 2 (Timestamp 2017 4 20) (Timestamp 2018 3 28);
   mkDeployment 1 (Timestamp 2016 10 11) (Timestamp 2017 5 1)].

(** The same situation on a small time axis: deployment 1 is recorded over
    0 .. 30, deployment 2 over 20 .. 40. *)
Definition ex_deployments : list Deployment :=
  [mkDeployment 1 0 30; mkDeployment 2 20 40].

(** Samples of deployment 1, one of them exactly at the clipped end 20. *)
Definition ex_boundary_ds : list (Sample Z) :=
  [mkSample 10 1 100; mkSample 20 1 101; mkSample 25 1 102].

(** Samples of deployments 1 and 2 in one dataset. *)
Definition ex_mixed_ds : list (Sample Z) :=
  [mkSample 5 1 100; mkSample 10 2 101; mkSample 20 1 102; mkSample 21 2 103].

(** One sample of deployment 1, taken after deployment 2 had started. *)
Definition ex_late_ds : list (Sample Z) := [mkSample 25 1 100].

(** Three sources for [pCO2_water]: recovered_inst has values at t = 1, 2, 4,
    recovered_host at t = 1 .. 4 and telemetered at t = 1 .. 5; the
    telemetered dataset also carries a [battery] variable. *)
Definition ex_tele : Dataset Z :=
  {| time_index := list_to_set [1; 2; 3; 4; 5];
     variables :=
       {[ "pCO2_water"%string := list_to_map [(1, 310); (2, 320); (3, 330); (4, 340); (5, 350)];
          "battery"%string := list_to_map [(1, 12); (5, 11)] ]} |}.

Definition ex_host : Dataset Z :=
  {| time_index := list_to_set [1; 2; 3; 4];
     variables :=
       {[ "pCO2_water"%string := list_to_map [(1, 410); (2, 420); (3, 430); (4, 440)] ]} |}.

Definition ex_inst : Dataset Z :=
  {| time_index := list_to_set [1; 2; 4];
     variables :=
       {[ "pCO2_water"%string := list_to_map [(1, 510); (2, 520); (4, 540)] ]} |}.

Definition ex_workspace : Workspace Z :=
  {| tele_data := ex_tele; host_data := ex_host; inst_data := ex_inst |}.

(** * The other cells of the notebooks *)

(** ** Strings and boolean masks *)

(** [sub in s] on strings. *)
Fixpoint contains (sub s : string) : bool :=
  String.prefix sub s ||
  match s with
  | EmptyString => false
  | String _ s' => contains sub s'
  end.

(** [frame[mask]]: the rows of the frame whose mask entry is [True]. *)
Fixpoint getitem_mask {A} (rows : list A) (mask : list bool) : list A :=
  match rows, mask with
  | r :: rows', m :: mask' =>
      if m then r :: getitem_mask rows' mask' else getitem_mask rows' mask'
  | _, _ => []
  end.

(** [frame[frame[column].apply(f)]] *)
Definition apply_mask {A B} (column : A → B) (f : B → bool) (frame : list A) : list A :=
  getitem_mask frame (f ∘ column <$> frame).

(** ** The metadata and datastream tables *)

(** A row of [get_datastreams]. *)
Record Datastream : Set := mkDatastream {
  refdes : string;
  method : string;
  stream : string
}.

(** A row of [get_metadata]: a parameter id and the stream it is part of. *)
Record ParameterRow : Set := mkParameterRow {
  pdId : string;
  of_stream : Datastream
}.

(** [filter_parameter_ids]; [pid_dict.get] is [None] for a missing key and
    for a key whose level is [None]. *)
Definition filter_parameter_ids (pdId : string) (pid_dict : gmap string (option Z)) : bool :=
  let data_level := default None (pid_dict !! pdId) in
  match data_level with
  | Some level => if 0 <? level then true else false
  | None => false
  end.

(** Lines 238-239: the rows of the metadata whose parameter is a science
    parameter. *)
Definition science_parameters (metadata : list ParameterRow)
    (data_levels : gmap string (option Z)) : list ParameterRow :=
  apply_mask pdId (λ x, filter_parameter_ids x data_levels) metadata.

(** Lines 280-281 (metadata) and 482-483 (datastreams) of
    Downloading_Data.ipynb: the two lambdas over the stream name and the
    frames they select. *)
Definition not_blank (x : string) : bool :=
  if contains "blank" x then false else true.

Definition science_stream (x : string) : bool :=
  if contains "metadata" x || contains "blank" x || contains "power" x || contains "air" x
  then false else true.

Definition drop_blank_streams (metadata : list ParameterRow) : list ParameterRow :=
  apply_mask (stream ∘ of_stream) not_blank metadata.

Definition science_datastreams (datastreams : list Datastream) : list Datastream :=
  apply_mask stream science_stream datastreams.

(** ** Lists of catalog entries and files *)

(** [l.remove(x)]: the list without the first entry equal to [x]; [None] is
    the [ValueError] for an [x] that is not in the list. *)
Fixpoint list_remove (x : string) (l : list string) : option (list string) :=
  match l with
  | [] => None
  | y :: l' => if decide (x = y) then Some l' else (y ::.) <$> list_remove x l'
  end.

(** How a [for] loop over a list that it changes can end. *)
Inductive LoopResult : Set :=
  | Finished (catalog : list string)
  | ValueError
  | OutOfFuel.

(** The loop of the download cell:
<<
    for dataset in catalog:
        if "blank" in dataset:
            catalog.remove(dataset)
>>
    The iterator of a list is a position [i] in the list as it is at that
    moment: it stops when [i] is past the end, otherwise it hands out entry
    [i] and moves on to [i + 1]. *)
Fixpoint for_remove_blank (fuel i : nat) (catalog : list string) : LoopResult :=
  match catalog !! i with
  | None => Finished catalog
  | Some dataset =>
      match fuel with
      | O => OutOfFuel
      | S fuel' =>
          if contains "blank" dataset then
            match list_remove dataset catalog with
            | None => ValueError
            | Some catalog' => for_remove_blank fuel' (S i) catalog'
            end
          else for_remove_blank fuel' (S i) catalog
      end
  end.

Definition remove_blank_datasets (catalog : list string) : LoopResult :=
  for_remove_blank (length catalog) 0 catalog.

(** [for f in remove_files: files.remove(f)] *)
Fixpoint remove_each (remove_files files : list string) : option (list string) :=
  match remove_files with
  | [] => Some files
  | f :: remove_files' => files' ← list_remove f files; remove_each remove_files' files'
  end.

(** The cells that keep the water stream only: the files with [air] in
    their name are collected first and removed afterwards. *)
Definition remove_air_files (files : list string) : option (list string) :=
  let remove_files := filter (λ file, contains "air" file = true) files in
  remove_each remove_files files.

(** [sorted([directory + f for f in listing if "metbk" not in f])]; strings
    are compared character by character, so there is one sorted order. *)
Definition sorted_files (directory : string) (listing : list string) : list string :=
  merge_sort String.le
    ((λ f, directory +:+ f) <$> filter (λ f, contains "metbk" f = false) listing).

(** The file list of the telemetered or the recovered_host method as the
    merge reads it: the listing cell followed by the water-stream cell. *)
Definition water_files (directory : string) (listing : list string) : option (list string) :=
  remove_air_files (sorted_files directory listing).

(** ** The reference designator of a dataset *)

(** [s.split(sep)] for a separator of one character. *)
Fixpoint split (sep : Ascii.ascii) (s : string) : list string :=
  match s with
  | EmptyString => [EmptyString]
  | String c s' =>
      if decide (c = sep) then EmptyString :: split sep s'
      else
        match split sep s' with
        | [] => [String c EmptyString]
        | part :: parts => String c part :: parts
        end
  end.

(** Line 606 of [open_datasets]: ["-".join(id.split("-")[:4])]; 45 is the
    code of the hyphen. *)
Definition refdes_of_id (id : string) : string :=
  String.concat "-" (take 4 (split (Ascii.ascii_of_nat 45) id)).

(** ** Loading the datastreams *)

(** Whether the pattern of [re.sub("catalog.html\?dataset=", ...)] matches
    at the start of [s]: the dot of the pattern stands for any character
    but a newline (code 10), the question mark is escaped. Strings are
    sequences of one-byte characters. *)
Definition match_catalog (s : string) : bool :=
  String.prefix "catalog" s &&
  match String.get 7 s with
  | Some c => negb (Ascii.eqb c (Ascii.ascii_of_nat 10))
  | None => false
  end &&
  String.eqb (String.substring 8 13 s) "html?dataset=".

(** [re.sub("catalog.html\?dataset=", repl, s)] for a replacement without
    backslashes: the matches are looked for from left to right and do not
    overlap; [skip] counts the characters of a match that are still to be
    passed over. *)
Fixpoint re_sub_from (skip : nat) (repl s : string) : string :=
  match s with
  | EmptyString => EmptyString
  | String c s' =>
      match skip with
      | S skip' => re_sub_from skip' repl s'
      | O =>
          if match_catalog s then repl +:+ re_sub_from 20 repl s'
          else String c (re_sub_from 0 repl s')
      end
  end.

Definition re_sub_catalog (repl s : string) : string := re_sub_from 0 repl s.

Module Loading.
Section Loading.
(** The collaborators of the loop of lines 506-553: the cleaned THREDDS
    catalog of a datastream on the gold-copy server ([true]) or on OOINet
    ([false]), the two OPeNDAP prefixes of [M2M.URLS], and
    [xr.open_mfdataset] with its preprocessing, which may raise ([None]). *)
Context {D : Type}.
Variable catalog_of : bool → Datastream → list string.
Variables goldCopy_dodsC dodsC : string.
Variable open_mfdataset : list string → option D.

(** The names the loop binds; [None] is a name that is not bound. *)
Record Loaded : Type := mkLoaded {
  tele_data : option D;
  host_data : option D
}.

(** The files of one datastream: its catalog on the gold-copy server or,
    when that is empty, on OOINet, with the catalog prefix of each entry
    replaced by the OPeNDAP prefix of the same server, but for the entries
    with [blank] in them. *)
Definition files_of (d : Datastream) : list string :=
  let catalog := catalog_of true d in
  let '(catalog, dodsC') :=
    if decide (length catalog = 0%nat) then (catalog_of false d, dodsC)
    else (catalog, goldCopy_dodsC) in
  filter (λ f, contains "blank" f = false) (re_sub_catalog dodsC' <$> catalog).

(** The body of the loop for one datastream; [None] when opening the files
    raises. *)
Definition load_stream (loaded : Loaded) (d : Datastream) : option Loaded :=
  if decide (method d = "telemetered"%string) then
    ds ← open_mfdataset (files_of d);
    Some {| tele_data := Some ds; host_data := host_data loaded |}
  else if decide (method d = "recovered_host"%string) then
    ds ← open_mfdataset (files_of d);
    Some {| tele_data := tele_data loaded; host_data := Some ds |}
  else Some loaded.

Fixpoint load_datastreams (datastreams : list Datastream) (loaded : Loaded)
    : option Loaded :=
  match datastreams with
  | [] => Some loaded
  | d :: datastreams' =>
      loaded' ← load_stream loaded d; load_datastreams datastreams' loaded'
  end.
End Loading.
End Loading.

(** * Properties *)

(** ** The deployment table *)

Lemma insert_row_Permutation r rows : insert_row r rows ≡ₚ r :: rows.
Proof.
  induction rows as [|r' rows IH]; simpl; [done|].
  case_match; [done|]. rewrite IH. apply Permutation_swap.
Qed.

Lemma sort_values_Permutation deployments : sort_values deployments ≡ₚ deployments.
Proof.
  induction deployments as [|r rows IH]; simpl; [done|].
  by rewrite insert_row_Permutation, IH.
Qed.

Lemma insert_row_sorted r rows :
  StronglySorted (λ a b, deploymentNumber a ≤ deploymentNumber b) rows →
  StronglySorted (λ a b, deploymentNumber a ≤ deploymentNumber b) (insert_row r rows).
Proof.
  induction 1 as [|r' rows Hs IH Hall]; simpl.
  - repeat constructor.
  - destruct (Z.leb_spec (deploymentNumber r) (deploymentNumber r')).
    + constructor; [by constructor|]. constructor; [done|].
      eapply Forall_impl; [exact Hall|]. simpl; intros; lia.
    + constructor; [done|]. rewrite insert_row_Permutation.
      constructor; [lia|done].
Qed.

Lemma sort_values_sorted deployments :
  StronglySorted (λ a b, deploymentNumber a ≤ deploymentNumber b) (sort_values deployments).
Proof.
  induction deployments; simpl; [constructor|by apply insert_row_sorted].
Qed.

Lemma shift_neg1_cons2 a b s : shift_neg1 (a :: b :: s) = Some b :: shift_neg1 (b :: s).
Proof. reflexivity. Qed.

(** The column operations of lines 418-422, read row by row. *)
Lemma clip_rows_cons r rows :
  let clip rows :=
    zip_with with_deployEnd rows
      (setitem_mask (deployEnd <$> rows)
         (series_gt (deployEnd <$> rows) (shift_neg1 (deployStart <$> rows)))
         (shift_neg1 (deployStart <$> rows))) in
  clip (r :: rows) = with_deployEnd r (effectiveEnd r (head rows)) :: clip rows.
Proof.
  destruct rows as [|n rows]; simpl; [done|].
  unfold effectiveEnd. f_equal.
  destruct (Z.ltb_spec (deployStart n) (deployEnd r)),
    (Z.leb_spec (deployEnd r) (deployStart n)); simpl; done || lia.
Qed.

Lemma clip_deployEnd_lookup deployments i :
  clip_deployEnd deployments !! i =
    (λ r, with_deployEnd r (effectiveEnd r (sort_values deployments !! S i)))
      <$> sort_values deployments !! i.
Proof.
  unfold clip_deployEnd. generalize (sort_values deployments) as rows.
  intros rows. revert i. induction rows as [|r rows IH]; intros i; [done|].
  rewrite clip_rows_cons. destruct i as [|i]; simpl.
  - by destruct rows.
  - apply IH.
Qed.

Lemma clip_deployEnd_numbers deployments :
  deploymentNumber <$> clip_deployEnd deployments
  = deploymentNumber <$> sort_values deployments.
Proof.
  apply list_eq. intros i. rewrite !list_lookup_fmap, clip_deployEnd_lookup.
  by destruct (sort_values deployments !! i).
Qed.

Lemma StronglySorted_lookup_le (l : list Z) i j x y :
  StronglySorted Z.le l → (i ≤ j)%nat → l !! i = Some x → l !! j = Some y → x ≤ y.
Proof.
  intros Hs. revert i j. induction Hs as [|a l Hs IH Hall]; intros i j Hij Hi Hj; [done|].
  destruct i as [|i], j as [|j]; simpl in *; simplify_eq; try lia.
  - rewrite Forall_forall in Hall. apply Hall. by eapply list_elem_of_lookup_2.
  - eapply IH; [|done..]. lia.
Qed.

(** C2: for every deployment table, row [i] of the clipped table is row [i]
    of the table sorted by [deploymentNumber] with its end replaced by the
    effective end: the recorded end when there is no next row or when the
    recorded end is not after the next row's start, and the next row's start
    otherwise. Deployment 1 = [2016-10-11, 2017-05-01) followed by
    Deployment 2 = [2017-04-20, 2018-03-28) gets the end 2017-04-20. *)
Theorem clip_deployEnd_effective_end :
  (∀ deployments i,
     clip_deployEnd deployments !! i =
       (λ r, with_deployEnd r (effectiveEnd r (sort_values deployments !! S i)))
         <$> sort_values deployments !! i) ∧
  (∀ r n : Deployment,
     effectiveEnd r None = deployEnd r ∧
     (deployEnd r ≤ deployStart n → effectiveEnd r (Some n) = deployEnd r) ∧
     (deployEnd r > deployStart n → effectiveEnd r (Some n) = deployStart n)) ∧
  clip_deployEnd
    [mkDeployment 1 (Timestamp 2016 10 11) (Timestamp 2017 5 1);
     mkDeployment 2 (Timestamp 2017 4 20) (Timestamp 2018 3 28)]
  = [mkDeployment 1 (Timestamp 2016 10 11) (Timestamp 2017 4 20);
     mkDeployment 2 (Timestamp 2017 4 20) (Timestamp 2018 3 28)].
Proof.
  split; [exact clip_deployEnd_lookup|]. split; [|by vm_compute].
  intros r n. unfold effectiveEnd.
  destruct (Z.leb_spec (deployEnd r) (deployStart n)); repeat split; done || lia.
Qed.

Lemma clip_deployEnd_effective_end_example :
  effectiveEnd
    (mkDeployment 1 (Timestamp 2016 10 11) (Timestamp 2017 5 1))
    (Some (mkDeployment 2 (Timestamp 2017 4 20) (Timestamp 2018 3 28)))
  = Timestamp 2017 4 20.
Proof.
  apply (proj2 (proj2 (proj1 (proj2 clip_deployEnd_effective_end)
    (mkDeployment 1 (Timestamp 2016 10 11) (Timestamp 2017 5 1))
    (mkDeployment 2 (Timestamp 2017 4 20) (Timestamp 2018 3 28))))).
  vm_compute. reflexivity.
Defined.

(** C4 (amended): when the starts do not decrease along the table sorted by
    [deploymentNumber], two different rows of the clipped table are in table
    order, the earlier one ends no later than the later one starts, and a
    sample that the time slice [deployStart .. deployEnd] of both rows
    selects lies on their common boundary: its time is the end of the
    earlier row and the start of the later one. *)
Theorem owned_ranges_meet_only_at_boundary {V} deployments i j ri rj :
  StronglySorted Z.le (deployStart <$> sort_values deployments) →
  (i < j)%nat →
  clip_deployEnd deployments !! i = Some ri →
  clip_deployEnd deployments !! j = Some rj →
  deploymentNumber ri ≤ deploymentNumber rj ∧
  deployEnd ri ≤ deployStart rj ∧
  ∀ s : Sample V,
    between (deployStart ri) (deployEnd ri) s →
    between (deployStart rj) (deployEnd rj) s →
    time s = deployEnd ri ∧ time s = deployStart rj.
Proof.
  intros Hstarts Hij Hi Hj.
  rewrite clip_deployEnd_lookup in Hi, Hj.
  destruct (sort_values deployments !! i) as [r|] eqn:Hri; [|done].
  destruct (sort_values deployments !! j) as [r'|] eqn:Hrj; [|done].
  simpl in Hi, Hj. simplify_eq.
  destruct (sort_values deployments !! S i) as [n|] eqn:Hn.
  2:{ apply lookup_ge_None in Hn. apply lookup_lt_Some in Hrj. lia. }
  assert (deployStart n ≤ deployStart r') as Hle.
  { eapply (StronglySorted_lookup_le _ (S i) j); [done|lia|..];
      rewrite list_lookup_fmap; [by rewrite Hn|by rewrite Hrj]. }
  assert (effectiveEnd r (Some n) ≤ deployStart n) as Hend.
  { unfold effectiveEnd. case_match; lia. }
  split_and!.
  - pose proof (sort_values_sorted deployments) as Hs.
    assert (∀ (l : list Deployment) a b x y,
      StronglySorted (λ a b, deploymentNumber a ≤ deploymentNumber b) l →
      (a < b)%nat → l !! a = Some x → l !! b = Some y →
      deploymentNumber x ≤ deploymentNumber y) as Hlk.
    { clear. intros l a b x y Hs. revert a b.
      induction Hs as [|c l Hs IH Hall]; intros a b Hab Ha Hb; [done|].
      destruct a as [|a], b as [|b]; simpl in *; simplify_eq; try lia.
      - rewrite Forall_forall in Hall. apply Hall. by eapply list_elem_of_lookup_2.
      - eapply IH; [|done..]. lia. }
    simpl. by eapply Hlk.
  - simpl in Hend |- *. lia.
  - unfold between. simpl in Hend |- *. intros s. lia.
Qed.

Lemma owned_ranges_meet_only_at_boundary_example :
  ∃ ri rj,
    clip_deployEnd ex_overlap !! 0%nat = Some ri ∧
    clip_deployEnd ex_overlap !! 1%nat = Some rj ∧
    deploymentNumber ri ≤ deploymentNumber rj ∧
    deployEnd ri ≤ deployStart rj ∧
    ∀ s : Sample Z,
      between (deployStart ri) (deployEnd ri) s →
      between (deployStart rj) (deployEnd rj) s →
      time s = deployEnd ri ∧ time s = deployStart rj.
Proof.
  eexists _, _. split; [reflexivity|]. split; [reflexivity|].
  apply (owned_ranges_meet_only_at_boundary (V:=Z) ex_overlap 0 1).
  - vm_compute. repeat constructor; discriminate.
  - lia.
  - reflexivity.
  - reflexivity.
Defined.

(** C4 as stated does not hold: the starts of [ex_deployments] increase,
    deployment 1 owns 0 .. 20 and deployment 2 owns 20 .. 40, and the trim
    keeps a sample taken at t = 20 both in a dataset of deployment 1 and in
    a dataset of deployment 2: the two ranges share the timestamp 20. *)
Lemma trim_overlaps_shares_boundary_timestamp :
  StronglySorted Z.le (deployStart <$> sort_values ex_deployments) ∧
  owned_interval ex_deployments 1 = Some (0, 20) ∧
  owned_interval ex_deployments 2 = Some (20, 40) ∧
  trim_overlaps [mkSample 10 1 100; mkSample 20 1 101] ex_deployments
    = Ok [mkSample 10 1 100; mkSample 20 1 101] ∧
  trim_overlaps [mkSample 20 2 200; mkSample 30 2 201] ex_deployments
    = Ok [mkSample 20 2 200; mkSample 30 2 201].
Proof.
  split_and!; try reflexivity.
  vm_compute. repeat constructor; discriminate.
Qed.

(** ** [np.unique], [loc] and the time slice *)

Lemma elem_of_insert_unique x y l : y ∈ insert_unique x l ↔ y = x ∨ y ∈ l.
Proof.
  induction l as [|a l IH]; simpl.
  - rewrite list_elem_of_singleton, elem_of_nil. tauto.
  - destruct (Z.ltb_spec x a); [by rewrite elem_of_cons|].
    destruct (Z.eqb_spec x a) as [->|].
    + rewrite elem_of_cons. tauto.
    + rewrite !elem_of_cons, IH. tauto.
Qed.

Lemma elem_of_np_unique y l : y ∈ np_unique l ↔ y ∈ l.
Proof.
  induction l as [|a l IH]; simpl; [done|].
  rewrite elem_of_insert_unique, elem_of_cons, IH. tauto.
Qed.

Lemma insert_unique_sorted x l :
  StronglySorted Z.lt l → StronglySorted Z.lt (insert_unique x l).
Proof.
  induction 1 as [|a l Hs IH Hall]; simpl; [repeat constructor|].
  destruct (Z.ltb_spec x a).
  - constructor; [by constructor|]. constructor; [done|].
    eapply Forall_impl; [exact Hall|]. simpl; intros; lia.
  - destruct (Z.eqb_spec x a); [by constructor|].
    constructor; [done|]. apply Forall_forall. intros y Hy.
    apply elem_of_insert_unique in Hy as [->|Hy]; [lia|].
    rewrite Forall_forall in Hall. by apply Hall.
Qed.

Lemma np_unique_sorted l : StronglySorted Z.lt (np_unique l).
Proof. induction l; simpl; [constructor|by apply insert_unique_sorted]. Qed.

(** The first entry of [np.unique] is the smallest value of the array. *)
Lemma np_unique_head l d :
  head (np_unique l) = Some d ↔ d ∈ l ∧ ∀ k, k ∈ l → d ≤ k.
Proof.
  pose proof (np_unique_sorted l) as Hs. split.
  - intros [rest Hl]%head_Some. rewrite Hl in Hs.
    apply StronglySorted_inv in Hs as [_ Hall]. rewrite Forall_forall in Hall.
    split.
    + apply elem_of_np_unique. rewrite Hl. left.
    + intros k Hk%elem_of_np_unique. rewrite Hl in Hk.
      apply elem_of_cons in Hk as [->|Hk]; [lia|]. apply Hall in Hk. lia.
  - intros [Hd Hmin]. destruct (np_unique l) as [|d' rest] eqn:Hl.
    + apply elem_of_np_unique in Hd. rewrite Hl in Hd. by apply elem_of_nil in Hd.
    + simpl. f_equal.
      assert (d' ∈ l) as Hd' by (apply elem_of_np_unique; rewrite Hl; left).
      apply Hmin in Hd'.
      apply elem_of_np_unique in Hd. rewrite Hl in Hd.
      apply StronglySorted_inv in Hs as [_ Hall]. rewrite Forall_forall in Hall.
      apply elem_of_cons in Hd as [->|Hd]; [done|]. apply Hall in Hd. lia.
Qed.

Lemma np_unique_nil l : np_unique l = [] ↔ l = [].
Proof.
  split; [|by intros ->]. intros Hl. destruct l as [|a l]; [done|].
  assert (a ∈ np_unique (a :: l)) as Ha by (apply elem_of_np_unique; left).
  rewrite Hl in Ha. by apply elem_of_nil in Ha.
Qed.

(** [loc] either finds a row for every label or raises [KeyError]. *)
Lemma loc_spec rows labels :
  loc rows labels =
    if decide (Forall (λ k, filter (λ r, deploymentNumber r = k) rows ≠ []) labels)
    then Ok (labels ≫= λ k, filter (λ r, deploymentNumber r = k) rows)
    else Err KeyError.
Proof.
  induction labels as [|k labels IH]; cbn [loc].
  - by rewrite decide_True by constructor.
  - destruct (filter (λ r, deploymentNumber r = k) rows) as [|r found] eqn:Hk.
    + rewrite decide_False; [done|]. intros Hall. apply Forall_cons in Hall as [? _].
      congruence.
    + rewrite IH. case_decide as Hall.
      * rewrite decide_True by (constructor; [congruence|done]).
        cbn [mbind list_bind Result_bind]. by rewrite Hk.
      * rewrite decide_False; [done|]. by intros [_ ?]%Forall_cons.
Qed.

Lemma rows_of_known deployments k :
  filter (λ r, deploymentNumber r = k) (clip_deployEnd deployments) ≠ []
  ↔ k ∈ deploymentNumber <$> deployments.
Proof.
  rewrite <-(sort_values_Permutation deployments) at 2.
  rewrite <-clip_deployEnd_numbers, list_elem_of_fmap. split.
  - intros Hne. destruct (filter _ _) as [|r found] eqn:Hf; [done|].
    assert (r ∈ filter (λ r, deploymentNumber r = k) (clip_deployEnd deployments)) as Hr
      by (rewrite Hf; left).
    apply list_elem_of_filter in Hr as [Hk Hr]. eauto.
  - intros (r & -> & Hr) Hnil.
    by apply (filter_nil_not_elem_of _ _ r) in Hnil.
Qed.

Section TrimFacts.
Context {V : Type}.
Implicit Types (ds : list (Sample V)) (deployments : list Deployment).

Lemma filter_between_above ds a b t :
  b < t → Forall (λ x, t ≤ x) (time <$> ds) → filter (between a b) ds = [].
Proof.
  intros Hbt. induction ds as [|s ds IH]; simpl; [done|].
  intros [Hs Hall]%Forall_cons. rewrite filter_cons_False; [by apply IH|].
  unfold between. lia.
Qed.

Lemma searchsorted_left_0 ds a :
  Forall (λ x, a ≤ x) (time <$> ds) → searchsorted_left a (time <$> ds) = 0%nat.
Proof.
  destruct ds as [|s ds]; simpl; [done|]. intros [Hs _]%Forall_cons.
  by destruct (Z.ltb_spec (time s) a); [lia|].
Qed.

(** On a monotonic index the slice is the closed range of labels. *)
Lemma sel_time_filter ds a b :
  monotonic ds → sel_time ds a b = filter (between a b) ds.
Proof.
  unfold monotonic, sel_time. induction ds as [|s ds IH]; simpl; [done|].
  intros [Hm Hall]%StronglySorted_inv. specialize (IH Hm).
  destruct (Z.ltb_spec (time s) a), (Z.leb_spec (time s) b); simpl.
  - rewrite filter_cons_False by (unfold between; lia). done.
  - rewrite filter_cons_False by (unfold between; lia).
    symmetry. eapply filter_between_above; [done|].
    eapply Forall_impl; [exact Hall|]. simpl; intros; lia.
  - rewrite filter_cons_True by (unfold between; lia). f_equal.
    rewrite <-IH, searchsorted_left_0; [by rewrite Nat.sub_0_r|].
    eapply Forall_impl; [exact Hall|]. simpl; intros; lia.
  - rewrite filter_cons_False by (unfold between; lia).
    symmetry. eapply filter_between_above; [done|].
    eapply Forall_impl; [exact Hall|]. simpl; intros; lia.
Qed.

Lemma monotonic_filter (P : Sample V → Prop) `{!∀ s, Decision (P s)} ds :
  monotonic ds → monotonic (filter P ds).
Proof.
  unfold monotonic. induction ds as [|s ds IH]; simpl; [done|].
  intros [Hm Hall]%StronglySorted_inv. specialize (IH Hm).
  rewrite filter_cons. case_decide; [|done]. simpl. constructor; [done|].
  rewrite Forall_forall in Hall |- *. intros t (s' & -> & Hs')%list_elem_of_fmap.
  apply list_elem_of_filter in Hs' as [_ Hs']. apply Hall, list_elem_of_fmap. eauto.
Qed.

Lemma filter_idemp (P : Sample V → Prop) `{!∀ s, Decision (P s)} ds :
  filter P (filter P ds) = filter P ds.
Proof.
  induction ds as [|s ds IH]; [done|]. rewrite filter_cons. case_decide; [|done].
  rewrite filter_cons_True by done. by rewrite IH.
Qed.

(** What [trim_overlaps] returns, by cases on the deployment tags found in
    the dataset. *)
Lemma trim_overlaps_empty deployments :
  trim_overlaps (V:=V) [] deployments = Err IndexError.
Proof. reflexivity. Qed.

Lemma trim_overlaps_known ds deployments d start stop :
  head (np_unique (deployment <$> ds)) = Some d →
  (∀ k, k ∈ deployment <$> ds → k ∈ deploymentNumber <$> deployments) →
  owned_interval deployments d = Some (start, stop) →
  trim_overlaps ds deployments = Ok (sel_time ds start stop).
Proof.
  intros [rest Hd]%head_Some Hknown Hint. unfold trim_overlaps.
  rewrite loc_spec, decide_True.
  2:{ apply Forall_forall. intros k Hk. rewrite elem_of_np_unique in Hk.
      by apply rows_of_known, Hknown. }
  rewrite Hd. simpl. unfold owned_interval in Hint.
  destruct (filter _ (clip_deployEnd deployments)) as [|r found]; [done|].
  simpl in Hint |- *. by simplify_eq.
Qed.

Lemma trim_overlaps_inv ds deployments ds' :
  trim_overlaps ds deployments = Ok ds' →
  ∃ d start stop,
    head (np_unique (deployment <$> ds)) = Some d ∧
    (∀ k, k ∈ deployment <$> ds → k ∈ deploymentNumber <$> deployments) ∧
    owned_interval deployments d = Some (start, stop) ∧
    ds' = sel_time ds start stop.
Proof.
  unfold trim_overlaps. rewrite loc_spec. case_decide as Hall; [|done].
  rewrite Forall_forall in Hall.
  destruct (np_unique (deployment <$> ds)) as [|d rest] eqn:Hd; [done|].
  simpl. unfold owned_interval.
  destruct (filter (λ r, deploymentNumber r = d) (clip_deployEnd deployments))
    as [|r found] eqn:Hr.
  { exfalso. by apply (Hall d); [left|]. }
  simpl. intros [= <-]. exists d, (deployStart r), (deployEnd r).
  split_and!; [done| |by rewrite Hr|done].
  intros k Hk. apply rows_of_known, Hall. rewrite <-Hd. by apply elem_of_np_unique.
Qed.
End TrimFacts.

(** ** Trimming a dataset *)

(** C3 (amended): for a non-empty dataset with a monotonic time index whose
    samples all carry the deployment number [d] of a row of the table, the
    trim succeeds and returns exactly the samples with
    [deployStart <= t <= effectiveEnd]; samples outside are dropped. *)
Theorem trim_overlaps_single_deployment {V} (ds : list (Sample V)) deployments d start stop :
  monotonic ds →
  ds ≠ [] →
  Forall (λ s, deployment s = d) ds →
  owned_interval deployments d = Some (start, stop) →
  trim_overlaps ds deployments = Ok (filter (between start stop) ds).
Proof.
  intros Hm Hne Hall Hint. rewrite Forall_forall in Hall.
  assert (∀ k, k ∈ deployment <$> ds → k = d) as Hone.
  { intros k (s & -> & Hs)%list_elem_of_fmap. by apply Hall. }
  rewrite <-sel_time_filter by done.
  apply (trim_overlaps_known _ _ d); [|intros k ->%Hone|done].
  - apply np_unique_head. split.
    + destruct ds as [|s ds]; [done|]. simpl. rewrite (Hall s) by left. left.
    + intros k ->%Hone. lia.
  - apply rows_of_known. unfold owned_interval in Hint.
    by destruct (filter _ (clip_deployEnd deployments)).
Qed.

Lemma trim_overlaps_single_deployment_example :
  trim_overlaps
    [mkSample 5 1 100; mkSample 10 1 101; mkSample 20 1 102; mkSample 21 1 103]
    [mkDeployment 1 0 30; mkDeployment 2 20 40]
  = Ok [mkSample 5 1 100; mkSample 10 1 101; mkSample 20 1 102].
Proof.
  apply (trim_overlaps_single_deployment
    [mkSample 5 1 100; mkSample 10 1 101; mkSample 20 1 102; mkSample 21 1 103]
    [mkDeployment 1 0 30; mkDeployment 2 20 40] 1 0 20).
  - unfold monotonic. simpl. repeat constructor; lia.
  - discriminate.
  - repeat constructor.
  - reflexivity.
Defined.

(** C3 as stated does not hold: the sample whose time is exactly the
    effective end (20) of its deployment is part of the trimmed dataset. *)
Lemma trim_overlaps_keeps_sample_at_effective_end :
  owned_interval ex_deployments 1 = Some (0, 20) ∧
  Forall (λ s, deployment s = 1) ex_boundary_ds ∧
  trim_overlaps ex_boundary_ds ex_deployments
  = Ok [mkSample 10 1 100; mkSample 20 1 101] ∧
  trim_overlaps ex_boundary_ds ex_deployments
  ≠ Ok (filter (λ s, 0 ≤ time s ∧ time s < 20) ex_boundary_ds).
Proof.
  split_and!.
  - reflexivity.
  - repeat constructor.
  - reflexivity.
  - vm_compute. discriminate.
Qed.

(** C5 (amended): a dataset with a monotonic time index that carries more
    than one deployment number, all of them rows of the table, is trimmed
    without an error: to the closed range of the smallest deployment number
    found in it. *)
Theorem trim_overlaps_several_deployments {V} (ds : list (Sample V)) deployments d k start stop :
  monotonic ds →
  d ∈ deployment <$> ds →
  k ∈ deployment <$> ds →
  k ≠ d →
  (∀ k', k' ∈ deployment <$> ds → d ≤ k' ∧ k' ∈ deploymentNumber <$> deployments) →
  owned_interval deployments d = Some (start, stop) →
  trim_overlaps ds deployments = Ok (filter (between start stop) ds).
Proof.
  intros Hm Hd _ _ Hall Hint. rewrite <-sel_time_filter by done.
  apply (trim_overlaps_known _ _ d); [|intros k' Hk'; by apply Hall|done].
  apply np_unique_head. split; [done|]. intros k' Hk'. by apply Hall.
Qed.

Lemma trim_overlaps_several_deployments_example :
  trim_overlaps ex_mixed_ds ex_deployments
  = Ok [mkSample 5 1 100; mkSample 10 2 101; mkSample 20 1 102].
Proof.
  apply (trim_overlaps_several_deployments ex_mixed_ds ex_deployments 1 2 0 20).
  - unfold monotonic. simpl. repeat constructor; lia.
  - simpl. left.
  - simpl. right. left.
  - discriminate.
  - simpl. intros k' Hk'.
    repeat (apply elem_of_cons in Hk' as [->|Hk']);
      [split; [lia|simpl; auto using list_elem_of_here, list_elem_of_further]..|].
    by apply elem_of_nil in Hk'.
  - reflexivity.
Defined.

(** C5 as stated does not hold: a dataset with samples of deployments 1 and
    2 is trimmed, not rejected. *)
Lemma trim_overlaps_accepts_two_deployments :
  np_unique (deployment <$> ex_mixed_ds) = [1; 2] ∧
  trim_overlaps ex_mixed_ds ex_deployments
  = Ok [mkSample 5 1 100; mkSample 10 2 101; mkSample 20 1 102].
Proof. split; reflexivity. Qed.

(** C6: a dataset with a sample whose deployment number is not a row of the
    deployment table makes the trim fail; the failure is the [KeyError] of
    the lookup of that number, which is the unknown-deployment error of the
    design. *)
Theorem trim_overlaps_unknown_deployment {V} (ds : list (Sample V)) deployments d :
  d ∈ deployment <$> ds →
  d ∉ deploymentNumber <$> deployments →
  trim_overlaps ds deployments = Err KeyError.
Proof.
  intros Hd Hunknown. unfold trim_overlaps. rewrite loc_spec.
  rewrite decide_False; [done|]. rewrite Forall_forall. intros Hall.
  apply Hunknown, rows_of_known, Hall, elem_of_np_unique, Hd.
Qed.

Lemma trim_overlaps_unknown_deployment_example :
  trim_overlaps [mkSample 7 5 100]
    [mkDeployment 1 0 10; mkDeployment 2 10 20; mkDeployment 3 20 30; mkDeployment 4 30 40]
  = Err KeyError.
Proof.
  apply (trim_overlaps_unknown_deployment [mkSample 7 5 100]
    [mkDeployment 1 0 10; mkDeployment 2 10 20; mkDeployment 3 20 30; mkDeployment 4 30 40] 5).
  - simpl. left.
  - simpl. intros H.
    repeat (apply elem_of_cons in H as [H|H]; [discriminate|]).
    by apply elem_of_nil in H.
Defined.

(** C8 (amended): when a trim of a dataset with a monotonic time index
    succeeds and its result still holds a sample of the deployment that
    fixed the range (the smallest deployment number of the dataset), a
    second trim returns that result unchanged. *)
Theorem trim_overlaps_idempotent {V} (ds ds' : list (Sample V)) deployments d :
  monotonic ds →
  trim_overlaps ds deployments = Ok ds' →
  head (np_unique (deployment <$> ds)) = Some d →
  d ∈ deployment <$> ds' →
  trim_overlaps ds' deployments = Ok ds'.
Proof.
  intros Hm (d' & start & stop & Hd' & Hknown & Hint & ->)%trim_overlaps_inv Hd Hin.
  assert (d' = d) as -> by congruence.
  rewrite sel_time_filter in Hin |- * by done.
  assert (∀ k, k ∈ deployment <$> filter (between start stop) ds → k ∈ deployment <$> ds)
    as Hsub.
  { intros k (s & -> & [_ Hs]%list_elem_of_filter)%list_elem_of_fmap.
    apply list_elem_of_fmap. eauto. }
  apply np_unique_head in Hd as [_ Hmin].
  rewrite <-(filter_idemp (between start stop) ds) at 2.
  rewrite <-(sel_time_filter (filter (between start stop) ds))
    by by apply monotonic_filter.
  apply (trim_overlaps_known _ _ d); [|by auto|done].
  apply np_unique_head. auto.
Qed.

Lemma trim_overlaps_idempotent_example :
  trim_overlaps [mkSample 5 1 100; mkSample 10 1 101; mkSample 20 1 102]
    [mkDeployment 1 0 30; mkDeployment 2 20 40]
  = Ok [mkSample 5 1 100; mkSample 10 1 101; mkSample 20 1 102].
Proof.
  apply (trim_overlaps_idempotent
    [mkSample 5 1 100; mkSample 10 1 101; mkSample 20 1 102; mkSample 21 1 103]
    _ [mkDeployment 1 0 30; mkDeployment 2 20 40] 1).
  - unfold monotonic. simpl. repeat constructor; lia.
  - reflexivity.
  - reflexivity.
  - simpl. left.
Defined.

(** C8 as stated does not hold: the only sample lies past the clipped end
    of its deployment, the first trim returns the empty dataset and the
    second trim of that result fails. *)
Lemma trim_overlaps_twice_fails :
  trim_overlaps ex_late_ds ex_deployments = Ok [] ∧
  (ds' ← trim_overlaps ex_late_ds ex_deployments; trim_overlaps ds' ex_deployments)
  = Err IndexError.
Proof. split; reflexivity. Qed.

(** ** The merge cells *)

Section MergeFacts.
Context {V : Type}.
Implicit Types (a b donor target : Dataset V) (var : string) (t : Z).

(** The state of the target after an alignment loop: its time index and its
    own variables are as before, and every variable it lacked is the
    donor's column cut to the target's time index. *)
Lemma broadcast_missing_spec donor target :
  time_index (broadcast_missing donor target) = time_index target ∧
  ∀ var,
    variables (broadcast_missing donor target) !! var =
      match variables target !! var with
      | Some col => Some col
      | None =>
          filter (λ kv : Z * V, kv.1 ∈ time_index target) <$> variables donor !! var
      end.
Proof.
  unfold broadcast_missing.
  apply (map_fold_weak_ind (λ r (m : gmap string (gmap Z V)),
    time_index r = time_index target ∧
    ∀ var, variables r !! var =
      match variables target !! var with
      | Some col => Some col
      | None => filter (λ kv : Z * V, kv.1 ∈ time_index target) <$> m !! var
      end)).
  - split; [done|]. intros var. rewrite lookup_empty. by destruct (variables target !! var).
  - intros i col m r Hi [Ht Hv]. pose proof (Hv i) as Hvi. rewrite Hi in Hvi.
    destruct (variables r !! i) as [c|] eqn:Hri.
    + split; [done|]. intros var. rewrite Hv.
      destruct (decide (i = var)) as [<-|]; [|by rewrite lookup_insert_ne].
      by destruct (variables target !! i).
    + split; [done|]. intros var. simpl. rewrite Ht.
      destruct (decide (i = var)) as [<-|].
      * rewrite !lookup_insert_eq. by destruct (variables target !! i).
      * rewrite !lookup_insert_ne by done. apply Hv.
Qed.

Lemma broadcast_missing_time_index donor target :
  time_index (broadcast_missing donor target) = time_index target.
Proof. apply broadcast_missing_spec. Qed.

Lemma broadcast_missing_lookup donor target var :
  variables (broadcast_missing donor target) !! var =
    match variables target !! var with
    | Some col => Some col
    | None =>
        filter (λ kv : Z * V, kv.1 ∈ time_index target) <$> variables donor !! var
    end.
Proof. apply broadcast_missing_spec. Qed.

Lemma broadcast_missing_dom donor target :
  dom (variables (broadcast_missing donor target))
  = dom (variables target) ∪ dom (variables donor).
Proof.
  apply set_eq. intros var.
  rewrite elem_of_union, !elem_of_dom, broadcast_missing_lookup.
  destruct (variables target !! var), (variables donor !! var); simpl;
    split; eauto; intros [[? [=]]|[? [=]]].
Qed.

Lemma cell_broadcast_missing donor target var t :
  cell (broadcast_missing donor target) var t =
    match variables target !! var with
    | Some col => col !! t
    | None => if decide (t ∈ time_index target) then cell donor var t else None
    end.
Proof.
  unfold cell. rewrite broadcast_missing_lookup.
  destruct (variables target !! var); [done|].
  destruct (variables donor !! var) as [col|]; simpl; [|by case_decide].
  rewrite map_lookup_filter. destruct (col !! t); simpl; [|by case_decide].
  by destruct (decide (t ∈ time_index target)); simplify_option_eq.
Qed.

Lemma cell_combine_first a b var t :
  cell (combine_first a b) var t = fill (cell a var t) (cell b var t).
Proof.
  unfold cell, combine_first. simpl. rewrite lookup_union_with.
  destruct (variables a !! var) as [c1|], (variables b !! var) as [c2|]; simpl; try done.
  - rewrite lookup_union. by destruct (c1 !! t), (c2 !! t).
  - by destruct (c1 !! t).
Qed.

(** Filling the target's new variables from the donor does not change what
    the two datasets combine to. *)
Lemma fill_broadcast_missing_l a b var t :
  fill (cell (broadcast_missing b a) var t) (cell b var t)
  = fill (cell a var t) (cell b var t).
Proof.
  rewrite cell_broadcast_missing.
  destruct (variables a !! var) as [col|] eqn:Ha.
  - replace (cell a var t) with (col !! t); [done|]. unfold cell. by rewrite Ha.
  - replace (cell a var t) with (@None V) by (unfold cell; by rewrite Ha).
    case_decide; [|done]. by destruct (cell b var t).
Qed.

Lemma fill_broadcast_missing_r a b var t :
  fill (cell a var t) (cell (broadcast_missing a b) var t)
  = fill (cell a var t) (cell b var t).
Proof.
  rewrite cell_broadcast_missing.
  destruct (variables b !! var) as [col|] eqn:Hb.
  - replace (cell b var t) with (col !! t); [done|]. unfold cell. by rewrite Hb.
  - replace (cell b var t) with (@None V) by (unfold cell; by rewrite Hb).
    case_decide; by destruct (cell a var t).
Qed.

Lemma cell_merge (w : Workspace V) var t :
  cell (merge w).2 var t =
    fill (cell (inst_data w) var t)
      (fill (cell (tele_data w) var t) (cell (host_data w) var t)).
Proof.
  unfold merge. simpl.
  rewrite cell_combine_first, fill_broadcast_missing_r, fill_broadcast_missing_l.
  by rewrite cell_combine_first, fill_broadcast_missing_l, fill_broadcast_missing_r.
Qed.

Lemma merge_time_index (w : Workspace V) :
  time_index (merge w).2
  = time_index (inst_data w) ∪ (time_index (tele_data w) ∪ time_index (host_data w)).
Proof.
  unfold merge. simpl. rewrite !broadcast_missing_time_index. simpl.
  by rewrite !broadcast_missing_time_index.
Qed.

Lemma combine_first_dom a b :
  dom (variables (combine_first a b)) = dom (variables a) ∪ dom (variables b).
Proof.
  apply set_eq. intros var. simpl.
  rewrite elem_of_union, !elem_of_dom, lookup_union_with.
  destruct (variables a !! var), (variables b !! var); simpl;
    split; eauto; intros [[? [=]]|[? [=]]].
Qed.

Lemma merge_dom (w : Workspace V) :
  dom (variables (merge w).2)
  = dom (variables (inst_data w)) ∪
    (dom (variables (tele_data w)) ∪ dom (variables (host_data w))).
Proof.
  unfold merge. cbv zeta. cbn [snd].
  rewrite !combine_first_dom, !broadcast_missing_dom, !combine_first_dom,
    !broadcast_missing_dom.
  apply set_eq. intros x. rewrite !elem_of_union. tauto.
Qed.

(** Both operations keep every column on the time index of its dataset. *)
Lemma broadcast_missing_well_formed donor target :
  well_formed target → well_formed (broadcast_missing donor target).
Proof.
  intros Hwf var col. rewrite broadcast_missing_lookup, broadcast_missing_time_index.
  destruct (variables target !! var) as [c|] eqn:Hvar.
  - intros [= <-]. by apply (Hwf var).
  - destruct (variables donor !! var) as [c|]; simpl; [|done]. intros [= <-].
    intros t [x Hx]%elem_of_dom. by apply map_lookup_filter_Some in Hx as [_ ?].
Qed.

Lemma combine_first_well_formed a b :
  well_formed a → well_formed b → well_formed (combine_first a b).
Proof.
  intros Ha Hb var col. simpl. rewrite lookup_union_with.
  destruct (variables a !! var) as [c1|] eqn:H1,
    (variables b !! var) as [c2|] eqn:H2; simpl; [|..|done]; intros [= <-].
  - rewrite dom_union_L. apply union_mono; [by apply (Ha var)|by apply (Hb var)].
  - etrans; [by apply (Ha var)|]. apply union_subseteq_l.
  - etrans; [by apply (Hb var)|]. apply union_subseteq_r.
Qed.

Lemma merge_well_formed (w : Workspace V) :
  well_formed (tele_data w) → well_formed (host_data w) → well_formed (inst_data w) →
  well_formed (merge w).2.
Proof.
  intros Ht Hh Hi. unfold merge. cbv zeta. cbn [snd].
  repeat first [apply combine_first_well_formed | apply broadcast_missing_well_formed];
    done.
Qed.

Lemma broadcast_missing_subseteq donor target :
  variables target ⊆ variables (broadcast_missing donor target).
Proof.
  apply map_subseteq_spec. intros var col Hvar.
  by rewrite broadcast_missing_lookup, Hvar.
Qed.
End MergeFacts.

(** C1 (amended): every cell of the merged dataset holds the value of the
    first of recovered_inst, telemetered, recovered_host (in this order)
    that has a value at that variable and timestamp; a value of a later
    source shows up only where all earlier ones have none. *)
Theorem merge_priority {V} (w : Workspace V) (var : string) (t : Z) :
  cell (merge w).2 var t =
    fill (cell (inst_data w) var t)
      (fill (cell (tele_data w) var t) (cell (host_data w) var t)) ∧
  ∀ x, cell (merge w).2 var t = Some x →
    cell (inst_data w) var t = Some x ∨
    (cell (inst_data w) var t = None ∧ cell (tele_data w) var t = Some x) ∨
    (cell (inst_data w) var t = None ∧ cell (tele_data w) var t = None ∧
     cell (host_data w) var t = Some x).
Proof.
  split; [apply cell_merge|]. intros x. rewrite cell_merge.
  destruct (cell (inst_data w) var t), (cell (tele_data w) var t); simpl; auto.
Qed.

Lemma merge_priority_example :
  cell (inst_data ex_workspace) "pCO2_water" 3 = Some 330 ∨
  (cell (inst_data ex_workspace) "pCO2_water" 3 = None ∧
   cell (tele_data ex_workspace) "pCO2_water" 3 = Some 330) ∨
  (cell (inst_data ex_workspace) "pCO2_water" 3 = None ∧
   cell (tele_data ex_workspace) "pCO2_water" 3 = None ∧
   cell (host_data ex_workspace) "pCO2_water" 3 = Some 330).
Proof.
  apply (proj2 (merge_priority ex_workspace "pCO2_water" 3) 330).
  reflexivity.
Defined.

(** C1 as stated does not hold: at t = 3 recovered_inst has no value,
    recovered_host has 430 and telemetered has 330; the merged cell is the
    telemetered 330, not the value of the ranking
    recovered_inst > recovered_host > telemetered. *)
Lemma merge_prefers_telemetered_over_recovered_host :
  cell (inst_data ex_workspace) "pCO2_water" 3 = None ∧
  cell (host_data ex_workspace) "pCO2_water" 3 = Some 430 ∧
  cell (tele_data ex_workspace) "pCO2_water" 3 = Some 330 ∧
  cell (merge ex_workspace).2 "pCO2_water" 3 = Some 330 ∧
  cell (merge ex_workspace).2 "pCO2_water" 3 ≠
    fill (cell (inst_data ex_workspace) "pCO2_water" 3)
      (fill (cell (host_data ex_workspace) "pCO2_water" 3)
         (cell (tele_data ex_workspace) "pCO2_water" 3)).
Proof. split_and!; [reflexivity..|]. vm_compute. discriminate. Qed.

(** C7 (amended): the merge writes into the datasets it is given, and only
    by adding variables. In every run, complete or broken off by an
    exception, the time index of each of the three datasets and every
    variable it had before are the same afterwards. When the cells run
    through, the telemetered and the recovered_host dataset both have the
    variable names of the two of them, the recovered_inst dataset has those
    and its own, and [data] is bound. A run broken off by an exception binds
    no [data] and undoes nothing: when the exception is raised after the
    first alignment cell, the telemetered and the recovered_host dataset are
    already what they are after a complete run. *)
Theorem merge_writes_into_inputs {V} (w : Workspace V) (raised : option Raised) :
  let w' := (merge_until raised w).1 in
  ((time_index (tele_data w') = time_index (tele_data w) ∧
    variables (tele_data w) ⊆ variables (tele_data w')) ∧
   (time_index (host_data w') = time_index (host_data w) ∧
    variables (host_data w) ⊆ variables (host_data w')) ∧
   (time_index (inst_data w') = time_index (inst_data w) ∧
    variables (inst_data w) ⊆ variables (inst_data w'))) ∧
  (merge_until None w = ((merge w).1, Some (merge w).2) ∧
   dom (variables (tele_data (merge w).1))
     = dom (variables (tele_data w)) ∪ dom (variables (host_data w)) ∧
   dom (variables (host_data (merge w).1))
     = dom (variables (tele_data w)) ∪ dom (variables (host_data w)) ∧
   dom (variables (inst_data (merge w).1))
     = dom (variables (inst_data w)) ∪
       (dom (variables (tele_data w)) ∪ dom (variables (host_data w)))) ∧
  (∀ r, raised = Some r →
     (merge_until raised w).2 = None ∧
     (after_first_cell r = true →
        tele_data w' = tele_data (merge w).1 ∧
        host_data w' = host_data (merge w).1)).
Proof.
  intros w'. split_and!.
  - subst w'. destruct raised as [[]|]; simpl;
      apply broadcast_missing_time_index || reflexivity.
  - subst w'. destruct raised as [[]|]; simpl;
      apply broadcast_missing_subseteq || reflexivity.
  - subst w'. destruct raised as [[]|]; simpl;
      apply broadcast_missing_time_index || reflexivity.
  - subst w'. destruct raised as [[]|]; simpl;
      apply broadcast_missing_subseteq || reflexivity.
  - subst w'. destruct raised as [[]|]; simpl;
      apply broadcast_missing_time_index || reflexivity.
  - subst w'. destruct raised as [[]|]; simpl;
      apply broadcast_missing_subseteq || reflexivity.
  - reflexivity.
  - unfold merge. cbn [fst tele_data].
    rewrite !broadcast_missing_dom.
    apply set_eq. intros var. rewrite !elem_of_union. tauto.
  - unfold merge. cbn [fst host_data].
    rewrite !broadcast_missing_dom.
    apply set_eq. intros var. rewrite !elem_of_union. tauto.
  - unfold merge. cbn [fst inst_data].
    rewrite broadcast_missing_dom, combine_first_dom, !broadcast_missing_dom.
    apply set_eq. intros var. rewrite !elem_of_union. tauto.
  - intros r ->. subst w'. split; [by destruct r|].
    by destruct r.
Qed.

Lemma merge_writes_into_inputs_example :
  (merge_until (Some InCombine2) ex_workspace).2 = None ∧
  host_data (merge_until (Some InCombine2) ex_workspace).1
    = host_data (merge ex_workspace).1.
Proof.
  destruct (proj2 (proj2 (merge_writes_into_inputs ex_workspace (Some InCombine2)))
              InCombine2 eq_refl) as [Hdata Hwritten].
  split; [exact Hdata|].
  apply Hwritten. reflexivity.
Defined.

(** C7 as stated does not hold: after the merge the recovered_host dataset
    of the caller has the [battery] variable it did not have before, and it
    has it as well when the last [combine_first] raises and the merge
    fails. *)
Lemma merge_adds_variables_to_inputs :
  variables (host_data ex_workspace) !! "battery"%string = None ∧
  variables (host_data (merge ex_workspace).1) !! "battery"%string
    = Some {[ 1 := 12 ]} ∧
  (merge ex_workspace).1 ≠ ex_workspace ∧
  (merge_until (Some InCombine2) ex_workspace).2 = None ∧
  variables (host_data (merge_until (Some InCombine2) ex_workspace).1) !! "battery"%string
    = Some {[ 1 := 12 ]}.
Proof.
  split_and!.
  - reflexivity.
  - vm_compute. reflexivity.
  - intros H.
    apply (f_equal (λ w, cell (host_data w) "battery" 1)) in H.
    vm_compute in H. discriminate H.
  - reflexivity.
  - vm_compute. reflexivity.
Qed.

(** C10: an alignment cell leaves both datasets with the same variable
    names, and a variable that one dataset had to take from the other holds,
    on its own time index, the donor's value at the timestamps that are also
    in the donor's time index and no value at the others. *)
Theorem alignment_is_label_aligned {V} (a b : Dataset V) :
  well_formed a →
  well_formed b →
  let b' := broadcast_missing a b in
  let a' := broadcast_missing b' a in
  dom (variables a') = dom (variables b') ∧
  (∀ var col, variables a !! var = Some col → variables b !! var = None →
     ∃ col', variables b' !! var = Some col' ∧
       ∀ t, col' !! t =
         if decide (t ∈ time_index b ∧ t ∈ time_index a) then col !! t else None) ∧
  (∀ var col, variables b !! var = Some col → variables a !! var = None →
     ∃ col', variables a' !! var = Some col' ∧
       ∀ t, col' !! t =
         if decide (t ∈ time_index a ∧ t ∈ time_index b) then col !! t else None).
Proof.
  intros Ha Hb b' a'.
  assert (∀ (donor target : Dataset V) (col : gmap Z V) t,
    dom col ⊆ time_index donor →
    filter (λ kv : Z * V, kv.1 ∈ time_index target) col !! t =
      if decide (t ∈ time_index target ∧ t ∈ time_index donor) then col !! t else None)
    as Hcol.
  { intros donor target col t Hdom. rewrite map_lookup_filter.
    destruct (col !! t) as [x|] eqn:Hx; simpl; [|by case_decide].
    assert (t ∈ time_index donor) by (apply Hdom, elem_of_dom; eauto).
    destruct (decide (t ∈ time_index target)); simplify_option_eq;
      try done; exfalso; tauto. }
  split_and!.
  - subst a' b'. rewrite !broadcast_missing_dom.
    apply set_eq. intros x. rewrite !elem_of_union. tauto.
  - intros var col Hvar Hnone. eexists. subst b'.
    rewrite broadcast_missing_lookup, Hnone, Hvar. split; [done|].
    intros t. apply (Hcol a b). by apply (Ha var).
  - intros var col Hvar Hnone. eexists. subst a' b'.
    rewrite broadcast_missing_lookup, Hnone, broadcast_missing_lookup, Hvar.
    split; [done|]. intros t. apply (Hcol b a). by apply (Hb var).
Qed.

Lemma alignment_is_label_aligned_example :
  ∃ col', variables (broadcast_missing ex_tele ex_host) !! "battery"%string = Some col' ∧
    ∀ t, col' !! t =
      if decide (t ∈ time_index ex_host ∧ t ∈ time_index ex_tele)
      then ({[ 1 := 12; 5 := 11 ]} : gmap Z Z) !! t else None.
Proof.
  refine (proj1 (proj2 (alignment_is_label_aligned ex_tele ex_host _ _))
            "battery"%string {[ 1 := 12; 5 := 11 ]} _ _).
  - apply (bool_decide_unpack _). by vm_compute.
  - apply (bool_decide_unpack _). by vm_compute.
  - by vm_compute.
  - reflexivity.
Defined.

(** The datasets the merge leaves behind are the results of these
    alignment loops. *)
Lemma merge_inputs_after {V} (w : Workspace V) :
  host_data (merge w).1 = broadcast_missing (tele_data w) (host_data w) ∧
  tele_data (merge w).1 = broadcast_missing (host_data (merge w).1) (tele_data w) ∧
  inst_data (merge w).1 =
    broadcast_missing (combine_first (tele_data (merge w).1) (host_data (merge w).1))
      (inst_data w).
Proof. done. Qed.

(** C9: the merge of an empty list of sources is the error
    [EmptySourceSetError], for every type of values; no dataset is
    returned. *)
Theorem merge_sources_empty {V} :
  merge_sources (V:=V) [] = Err EmptySourceSetError.
Proof. reflexivity. Qed.

(** * Properties of the other cells *)

(** ** Substrings and masks *)

Lemma append_cons c s b : String c s +:+ b = String c (s +:+ b).
Proof. reflexivity. Qed.

Lemma append_nil b : "" +:+ b = b.
Proof. reflexivity. Qed.

Lemma append_assoc (a b c : string) : (a +:+ b) +:+ c = a +:+ (b +:+ c).
Proof. induction a as [|x a IH]; [done|]. by rewrite !append_cons, IH. Qed.

Lemma prefix_spec sub s : String.prefix sub s = true ↔ ∃ b, s = sub +:+ b.
Proof.
  revert s. induction sub as [|c sub IH]; intros s; simpl.
  - destruct s; split; eauto.
  - destruct s as [|c' s]; simpl.
    + split; [done|]. by intros [? ?].
    + destruct (Ascii.ascii_dec c c') as [->|Hc].
      * rewrite IH. split; intros [b Hb]; exists b; rewrite append_cons in *; congruence.
      * split; [done|]. intros [b Hb]. rewrite append_cons in Hb. congruence.
Qed.

(** [sub in s] holds exactly when [s] is some text, [sub], some text. *)
Lemma contains_spec sub s : contains sub s = true ↔ ∃ a b, s = a +:+ sub +:+ b.
Proof.
  split.
  - induction s as [|c s IH]; cbn [contains]; rewrite orb_true_iff.
    + intros [[b Hb]%prefix_spec|?]; [|done]. by exists "", b.
    + intros [[b Hb]%prefix_spec|(a & b & ->)%IH]; [by exists "", b|].
      by exists (String c a), b.
  - intros (a & b & ->). induction a as [|c a IH].
    + rewrite append_nil. destruct (sub +:+ b) eqn:Hs; cbn [contains];
        apply orb_true_iff; left; apply prefix_spec; eauto.
    + rewrite append_cons. cbn [contains]. rewrite IH. apply orb_true_r.
Qed.

Lemma apply_mask_filter {A B} (column : A → B) (f : B → bool) (frame : list A) :
  apply_mask column f frame = filter (λ r, f (column r) = true) frame.
Proof.
  unfold apply_mask. induction frame as [|r frame IH]; [done|].
  change (getitem_mask (r :: frame) (f ∘ column <$> r :: frame))
    with (if f (column r) then r :: getitem_mask frame (f ∘ column <$> frame)
          else getitem_mask frame (f ∘ column <$> frame)).
  rewrite filter_cons, IH. by destruct (f (column r)).
Qed.

(** ** The metadata and datastream filters *)

(** X1: the science-parameter cell keeps the rows of the metadata in their
    order, and a row is kept exactly when the table of data levels has a
    level for its parameter id that is greater than 0; a row whose id is
    not in the table, has the level [None] or has a level of 0 or less is
    dropped. *)
Theorem science_parameters_spec metadata data_levels :
  science_parameters metadata data_levels `sublist_of` metadata ∧
  ∀ r, r ∈ science_parameters metadata data_levels ↔
       r ∈ metadata ∧ ∃ level, data_levels !! pdId r = Some (Some level) ∧ 0 < level.
Proof.
  unfold science_parameters. rewrite apply_mask_filter. split; [apply sublist_filter|].
  intros r. rewrite list_elem_of_filter. unfold filter_parameter_ids.
  destruct (data_levels !! pdId r) as [[level|]|]; simpl.
  - destruct (Z.ltb_spec 0 level); split.
    + intros [_ ?]. eauto.
    + tauto.
    + by intros [? _].
    + intros [_ (level' & ? & ?)]. simplify_eq. lia.
  - split; [by intros [? _]|]. by intros [_ (? & ? & _)].
  - split; [by intros [? _]|]. by intros [_ (? & ? & _)].
Qed.

Lemma science_parameters_spec_example :
  mkParameterRow "PD1" (mkDatastream "R" "telemetered" "pco2a_water")
  ∈ science_parameters
      [mkParameterRow "PD7" (mkDatastream "R" "telemetered" "pco2a_water");
       mkParameterRow "PD1" (mkDatastream "R" "telemetered" "pco2a_water")]
      {[ "PD1"%string := Some 1; "PD7"%string := Some 0 ]}.
Proof.
  apply (proj2 (science_parameters_spec _ _)). split.
  - right. left.
  - exists 1. split; [reflexivity|lia].
Defined.

(** X2: the datastream cell keeps the datastreams in their order, and a
    datastream is kept exactly when its stream name has none of [metadata],
    [blank], [power] and [air] anywhere inside it. *)
Theorem science_datastreams_spec datastreams :
  science_datastreams datastreams `sublist_of` datastreams ∧
  ∀ d, d ∈ science_datastreams datastreams ↔
       d ∈ datastreams ∧
       ∀ word, word ∈ ["metadata"; "blank"; "power"; "air"]%string →
               ¬ ∃ a b, stream d = a +:+ word +:+ b.
Proof.
  unfold science_datastreams. rewrite apply_mask_filter. split; [apply sublist_filter|].
  intros d. rewrite list_elem_of_filter. unfold science_stream.
  assert (∀ word, (¬ ∃ a b, stream d = a +:+ word +:+ b) ↔ contains word (stream d) = false)
    as Hno.
  { intros word. rewrite <-contains_spec. by destruct (contains word (stream d)). }
  split.
  - intros [Hmask Hd]. split; [done|]. intros word Hword. apply Hno.
    repeat (apply elem_of_cons in Hword as [->|Hword]);
      [by destruct (contains _ (stream d)), (contains "blank" (stream d)),
            (contains "power" (stream d)), (contains "air" (stream d))..|].
    by apply elem_of_nil in Hword.
  - intros [Hd Hall]. split; [|done].
    rewrite (proj1 (Hno "metadata"%string)), (proj1 (Hno "blank"%string)),
      (proj1 (Hno "power"%string)), (proj1 (Hno "air"%string));
      [done|apply Hall; repeat constructor..].
Qed.

Lemma science_datastreams_spec_example :
  mkDatastream "CP03ISSM-SBD12-04-PCO2AA000" "telemetered" "pco2a_a_dcl_instrument_air"
  ∉ science_datastreams
      [mkDatastream "CP03ISSM-SBD12-04-PCO2AA000" "telemetered" "pco2a_a_dcl_instrument_water";
       mkDatastream "CP03ISSM-SBD12-04-PCO2AA000" "telemetered" "pco2a_a_dcl_instrument_air"].
Proof.
  intros [_ H]%(proj2 (science_datastreams_spec _)).
  apply (H "air"%string); [repeat constructor|].
  by exists "pco2a_a_dcl_instrument_"%string, ""%string.
Defined.

(** ** Removing entries from the lists *)

(** [l.remove(x)] takes out the first [x] and nothing else. *)
Lemma list_remove_app x l1 l2 :
  x ∉ l1 → list_remove x (l1 ++ x :: l2) = Some (l1 ++ l2).
Proof.
  induction l1 as [|y l1 IH]; simpl; intros Hx.
  - by rewrite decide_True.
  - apply not_elem_of_cons in Hx as [Hxy Hx]. rewrite decide_False by done.
    by rewrite IH.
Qed.

Lemma list_remove_spec x l l' :
  list_remove x l = Some l' ↔ ∃ l1 l2, l = l1 ++ x :: l2 ∧ l' = l1 ++ l2 ∧ x ∉ l1.
Proof.
  split.
  - revert l'. induction l as [|y l IH]; intros l'; simpl; [done|].
    case_decide as Hxy.
    + subst y. intros [= <-]. exists [], l. split_and!; [done..|]. apply not_elem_of_nil.
    + destruct (list_remove x l) as [k|]; simpl; [|done]. intros [= <-].
      destruct (IH k eq_refl) as (l1 & l2 & -> & -> & Hx).
      exists (y :: l1), l2. split_and!; [done..|]. by rewrite not_elem_of_cons.
  - intros (l1 & l2 & -> & -> & Hx). by apply list_remove_app.
Qed.

Lemma list_remove_elem_of x l : x ∈ l → ∃ l', list_remove x l = Some l'.
Proof.
  intros (l1 & l2 & -> & Hx)%list_elem_of_split_l.
  exists (l1 ++ l2). apply list_remove_spec. eauto.
Qed.

Lemma list_remove_length x l l' : list_remove x l = Some l' → length l = S (length l').
Proof.
  intros (l1 & l2 & -> & -> & _)%list_remove_spec. rewrite !length_app. simpl. lia.
Qed.

Lemma list_remove_sublist x l l' : list_remove x l = Some l' → l' `sublist_of` l.
Proof.
  intros (l1 & l2 & -> & -> & _)%list_remove_spec.
  apply sublist_app; [done|]. by apply sublist_cons.
Qed.

Lemma list_remove_filter (P : string → Prop) `{!∀ s, Decision (P s)} x l l' :
  ¬ P x → list_remove x l = Some l' → filter P l' = filter P l.
Proof.
  intros HP (l1 & l2 & -> & -> & _)%list_remove_spec.
  by rewrite !filter_app, filter_cons_False.
Qed.

(** The entries of the list after a removal, by position: the first
    position [p] of [x] is closed up. *)
Lemma list_remove_lookup x l l' :
  list_remove x l = Some l' →
  ∃ p, l !! p = Some x ∧ (∀ q, (q < p)%nat → l !! q ≠ Some x) ∧
       ∀ k, l' !! k = if decide (k < p)%nat then l !! k else l !! S k.
Proof.
  intros (l1 & l2 & -> & -> & Hx)%list_remove_spec. exists (length l1). split_and!.
  - by rewrite list_lookup_middle.
  - intros q Hq Hlook. rewrite lookup_app_l in Hlook by done.
    apply Hx. by eapply list_elem_of_lookup_2.
  - intros k. case_decide.
    + by rewrite !lookup_app_l.
    + rewrite !lookup_app_r by lia. by replace (S k - length l1)%nat with
        (S (k - length l1)) by lia.
Qed.

Lemma for_remove_blank_finishes fuel i catalog :
  (length catalog ≤ fuel + i)%nat →
  ∃ result,
    for_remove_blank fuel i catalog = Finished result ∧
    result `sublist_of` catalog ∧
    filter (λ f, contains "blank" f = false) result
    = filter (λ f, contains "blank" f = false) catalog.
Proof.
  revert i catalog. induction fuel as [|fuel IH]; intros i catalog Hlen.
  - simpl. rewrite lookup_ge_None_2 by lia. eauto.
  - simpl. destruct (catalog !! i) as [dataset|] eqn:Hi; [|eauto].
    destruct (contains "blank" dataset) eqn:Hblank.
    + destruct (list_remove_elem_of dataset catalog) as [catalog' Hrm];
        [by eapply list_elem_of_lookup_2|].
      rewrite Hrm. destruct (IH (S i) catalog') as (result & Hres & Hsub & Hkeep).
      { apply list_remove_length in Hrm. lia. }
      exists result. split_and!; [done|..].
      * etrans; [done|]. by eapply list_remove_sublist.
      * rewrite Hkeep. eapply list_remove_filter; [|done]. congruence.
    + apply IH. lia.
Qed.

(** X3: the single-pass loop over the catalog always comes to an end
    within one step per entry and never raises; what it returns is the
    catalog with some entries taken out, with every entry that has no
    [blank] in it still there, in the same order. *)
Theorem remove_blank_datasets_keeps_others catalog :
  ∃ result,
    remove_blank_datasets catalog = Finished result ∧
    result `sublist_of` catalog ∧
    filter (λ f, contains "blank" f = false) result
    = filter (λ f, contains "blank" f = false) catalog.
Proof. apply for_remove_blank_finishes. lia. Qed.

Lemma for_remove_blank_step fuel i catalog x :
  catalog !! i = Some x →
  for_remove_blank (S fuel) i catalog =
    if contains "blank" x then
      match list_remove x catalog with
      | None => ValueError
      | Some catalog' => for_remove_blank fuel (S i) catalog'
      end
    else for_remove_blank fuel (S i) catalog.
Proof. intros Hi. simpl. by rewrite Hi. Qed.

Lemma for_remove_blank_nonblank_prefix fuel front pre back :
  Forall (λ f, contains "blank" f = false) pre →
  for_remove_blank (length pre + fuel) (length front) (front ++ pre ++ back)
  = for_remove_blank fuel (length front + length pre) (front ++ pre ++ back).
Proof.
  revert front. induction pre as [|f pre IH]; intros front Hpre.
  - simpl. by rewrite Nat.add_0_r.
  - apply Forall_cons in Hpre as [Hf Hpre].
    change ((f :: pre) ++ back) with (f :: (pre ++ back)).
    change (length (f :: pre) + fuel)%nat with (S (length pre + fuel)).
    rewrite (for_remove_blank_step _ _ _ f) by by apply list_lookup_middle.
    rewrite Hf. specialize (IH (front ++ [f]) Hpre).
    rewrite length_app, <-!(assoc_L (++)) in IH. simpl in IH.
    rewrite Nat.add_1_r in IH. rewrite IH. f_equal. simpl. lia.
Qed.

(** An entry that the iterator has passed stays in the list unless an
    equal entry is still ahead. *)
Lemma for_remove_blank_passed fuel i catalog result y :
  for_remove_blank fuel i catalog = Finished result →
  y ∈ take i catalog → y ∉ drop i catalog → y ∈ result.
Proof.
  revert i catalog. induction fuel as [|fuel IH]; intros i catalog; simpl.
  - destruct (catalog !! i); [done|]. intros [= <-] Hy _.
    by eapply elem_of_sublist; [|apply sublist_take].
  - destruct (catalog !! i) as [x|] eqn:Hi.
    2:{ intros [= <-] Hy _. by eapply elem_of_sublist; [|apply sublist_take]. }
    intros Hres Hy Hny.
    assert (x ≠ y) as Hxy.
    { intros ->. apply Hny, list_elem_of_lookup. exists 0%nat.
      by rewrite lookup_drop, Nat.add_0_r. }
    apply elem_of_take in Hy as (q & Hq & Hqi).
    assert (∀ k, catalog !! (i + k)%nat ≠ Some y) as Hahead.
    { intros k Hk. apply Hny, list_elem_of_lookup. exists k. by rewrite lookup_drop. }
    destruct (contains "blank" x).
    + destruct (list_remove x catalog) as [catalog'|] eqn:Hrm; [|done].
      apply list_remove_lookup in Hrm as (p & Hp & Hfirst & Hlook).
      assert (p ≤ i)%nat as Hpi.
      { destruct (decide (p ≤ i)%nat); [done|]. exfalso. apply (Hfirst i); [lia|done]. }
      apply (IH (S i) catalog'); [done|..].
      * apply elem_of_take. destruct (decide (q < p)%nat).
        -- exists q. rewrite Hlook, decide_True by done. split; [done|lia].
        -- assert (q ≠ p) by congruence.
           exists (q - 1)%nat. rewrite Hlook, decide_False by lia.
           replace (S (q - 1)) with q by lia. split; [done|lia].
      * intros (k & Hk)%list_elem_of_lookup. rewrite lookup_drop, Hlook in Hk.
        rewrite decide_False in Hk by lia.
        apply (Hahead (S (S k))). by replace (i + S (S k))%nat with (S (S i + k)) by lia.
    + apply (IH (S i) catalog); [done|..].
      * apply elem_of_take. exists q. split; [done|lia].
      * intros (k & Hk)%list_elem_of_lookup. rewrite lookup_drop in Hk.
        apply (Hahead (S k)). by replace (i + S k)%nat with (S i + k)%nat by lia.
Qed.

(** X4: the single-pass loop does not clear the catalog of [blank]
    entries. When an entry [x] with [blank] in it is removed, the entry [y]
    right after it moves into the place the iterator has just left and is
    never looked at: it is part of the result whatever its name (unless an
    equal entry follows later and takes it out). *)
Theorem remove_blank_datasets_skips_next pre x y rest :
  Forall (λ f, contains "blank" f = false) pre →
  contains "blank" x = true →
  y ∉ rest →
  ∃ result,
    remove_blank_datasets (pre ++ x :: y :: rest) = Finished result ∧ y ∈ result.
Proof.
  intros Hpre Hx Hy.
  destruct (for_remove_blank_finishes (length (pre ++ x :: y :: rest)) 0
              (pre ++ x :: y :: rest)) as (result & Hres & _); [lia|].
  fold (remove_blank_datasets (pre ++ x :: y :: rest)) in Hres.
  exists result. split; [done|].
  unfold remove_blank_datasets in Hres. rewrite length_app in Hres.
  change (length (x :: y :: rest)) with (S (S (length rest))) in Hres.
  pose proof (for_remove_blank_nonblank_prefix (S (S (length rest))) [] pre
                (x :: y :: rest) Hpre) as Hstep.
  change (for_remove_blank (length pre + S (S (length rest))) 0 (pre ++ x :: y :: rest)
          = for_remove_blank (S (S (length rest))) (length pre) (pre ++ x :: y :: rest))
    in Hstep.
  rewrite Hstep in Hres. clear Hstep.
  rewrite (for_remove_blank_step _ _ _ x), Hx in Hres by by apply list_lookup_middle.
  assert (list_remove x (pre ++ x :: y :: rest) = Some (pre ++ y :: rest)) as Hrm.
  { apply list_remove_spec. exists pre, (y :: rest). split_and!; [done..|].
    intros Hin. rewrite Forall_forall in Hpre. apply Hpre in Hin. congruence. }
  rewrite Hrm in Hres.
  eapply for_remove_blank_passed; [exact Hres|..].
  - replace (S (length pre)) with (length (pre ++ [y])) by (rewrite length_app; simpl; lia).
    rewrite (assoc_L (++) pre [y] rest : pre ++ y :: rest = (pre ++ [y]) ++ rest).
    rewrite take_app_length. apply elem_of_app. right. left.
  - replace (S (length pre)) with (length (pre ++ [y])) by (rewrite length_app; simpl; lia).
    rewrite (assoc_L (++) pre [y] rest : pre ++ y :: rest = (pre ++ [y]) ++ rest).
    by rewrite drop_app_length.
Qed.

Lemma remove_blank_datasets_skips_next_example :
  ∃ result,
    remove_blank_datasets
      ["deployment0001_water.nc"; "deployment0001_blank.nc"; "deployment0002_blank.nc";
       "deployment0002_water.nc"]%string
    = Finished result ∧
    "deployment0002_blank.nc"%string ∈ result.
Proof.
  apply (remove_blank_datasets_skips_next
    ["deployment0001_water.nc"%string] "deployment0001_blank.nc"
    "deployment0002_blank.nc" ["deployment0002_water.nc"%string]).
  - repeat constructor.
  - reflexivity.
  - intros H. apply list_elem_of_singleton in H. discriminate H.
Defined.

Lemma remove_each_cons_other a remove_files files :
  a ∉ remove_files →
  remove_each remove_files (a :: files) = (a ::.) <$> remove_each remove_files files.
Proof.
  revert files. induction remove_files as [|f fs IH]; intros files Ha; [done|].
  apply not_elem_of_cons in Ha as [Haf Ha]. simpl.
  rewrite decide_False by done.
  destruct (list_remove f files) as [files'|]; simpl; [|done]. by apply IH.
Qed.

Lemma remove_each_filter (P : string → Prop) `{!∀ s, Decision (P s)} files :
  remove_each (filter P files) files = Some (filter (λ f, ¬ P f) files).
Proof.
  induction files as [|a files IH]; [done|]. rewrite !filter_cons.
  destruct (decide (P a)) as [Ha|Ha].
  - rewrite decide_False by tauto. simpl. by rewrite decide_True.
  - rewrite decide_True by done. rewrite remove_each_cons_other, IH; [done|].
    intros [? _]%list_elem_of_filter. done.
Qed.

Lemma remove_air_files_filter files :
  remove_air_files files = Some (filter (λ f, contains "air" f = false) files).
Proof.
  unfold remove_air_files. rewrite remove_each_filter. f_equal.
  apply list_filter_iff. intros f. by destruct (contains "air" f).
Qed.

(** X5: collecting the files with [air] in their name and removing them one
    by one afterwards never raises and leaves exactly the files without
    [air], in their order, also when a name occurs more than once. *)
Theorem remove_air_files_spec files :
  remove_air_files files = Some (filter (λ f, contains "air" f = false) files).
Proof. apply remove_air_files_filter. Qed.

Lemma StronglySorted_filter_le (P : string → Prop) `{!∀ s, Decision (P s)} l :
  StronglySorted String.le l → StronglySorted String.le (filter P l).
Proof.
  induction 1 as [|x l Hs IH Hall]; [constructor|]. rewrite filter_cons.
  case_decide; [|done]. constructor; [done|].
  rewrite Forall_forall in Hall |- *. intros y [_ Hy]%list_elem_of_filter. by apply Hall.
Qed.

(** X6: the file list of a method, after the listing cell and the
    water-stream cell, is in ascending order and holds exactly the paths
    [directory + f] of the listed names [f] that have no [metbk] in the name
    and no [air] anywhere in the path; the removal never raises. *)
Theorem water_files_spec directory listing :
  ∃ files,
    water_files directory listing = Some files ∧
    StronglySorted String.le files ∧
    ∀ path, path ∈ files ↔
      ∃ f, f ∈ listing ∧ path = directory +:+ f ∧
           contains "metbk" f = false ∧ contains "air" path = false.
Proof.
  unfold water_files. rewrite remove_air_files_filter. eexists. split; [done|]. split.
  - apply StronglySorted_filter_le, StronglySorted_merge_sort; apply _.
  - intros path. unfold sorted_files.
    rewrite list_elem_of_filter, merge_sort_Permutation, list_elem_of_fmap.
    setoid_rewrite list_elem_of_filter. split.
    + intros (Hair & f & -> & Hmetbk & Hf). eauto 6.
    + intros (f & Hf & -> & Hmetbk & Hair). eauto 6.
Qed.

(** X7: the test for [air] is made on the whole path, so when the directory
    part of the path has [air] in it no file is left at all. *)
Theorem water_files_air_directory directory listing :
  contains "air" directory = true →
  water_files directory listing = Some [].
Proof.
  intros (a & b & ->)%contains_spec.
  unfold water_files. rewrite remove_air_files_filter. f_equal.
  destruct (filter _ _) as [|path files] eqn:Hfiles; [done|]. exfalso.
  assert (path ∈ filter (λ f, contains "air" f = false)
                   (sorted_files (a +:+ "air" +:+ b) listing)) as Hpath
    by (rewrite Hfiles; left).
  apply list_elem_of_filter in Hpath as [Hair Hpath].
  unfold sorted_files in Hpath. rewrite merge_sort_Permutation in Hpath.
  apply list_elem_of_fmap in Hpath as (f & -> & _).
  assert (contains "air" ((a +:+ "air" +:+ b) +:+ f) = true) as Hin; [|congruence].
  apply contains_spec. exists a, (b +:+ f). by rewrite !append_assoc.
Qed.

Lemma water_files_air_directory_example :
  water_files "../data/repair/telemetered/" ["deployment0001_water.nc"; "deployment0002_water.nc"]
  = Some [].
Proof. apply water_files_air_directory. reflexivity. Defined.

(** ** The reference designator of a dataset *)

Lemma split_nonempty sep s : split sep s ≠ [].
Proof.
  destruct s as [|c s]; simpl; [done|]. case_decide; [done|]. by destruct (split sep s).
Qed.

Lemma concat_cons2 sep x y l :
  String.concat sep (x :: y :: l) = x +:+ sep +:+ String.concat sep (y :: l).
Proof. reflexivity. Qed.

(** ["-".join(s.split("-"))] is [s] again. *)
Lemma concat_split sep s : String.concat (String sep "") (split sep s) = s.
Proof.
  induction s as [|c s IH]; [done|]. cbn [split]. case_decide as Hc.
  - subst c. destruct (split sep s) as [|part parts] eqn:Hs.
    + by apply split_nonempty in Hs.
    + rewrite concat_cons2, IH. by rewrite append_nil, append_cons, append_nil.
  - destruct (split sep s) as [|part [|part' parts]] eqn:Hs.
    + by apply split_nonempty in Hs.
    + simpl in IH |- *. by subst.
    + rewrite concat_cons2 in IH |- *. by rewrite append_cons, IH.
Qed.

Lemma contains_char_cons sep c s :
  contains (String sep "") (String c s) = false ↔ c ≠ sep ∧ contains (String sep "") s = false.
Proof.
  cbn [contains String.prefix]. destruct (Ascii.ascii_dec sep c) as [->|Hne].
  - destruct s; simpl; split; try done; by intros [? _].
  - simpl. split; [|by intros [_ ?]]. intros ?. split; [congruence|done].
Qed.

Lemma split_app_sep sep part rest :
  contains (String sep "") part = false →
  split sep (part +:+ String sep rest) = part :: split sep rest.
Proof.
  induction part as [|c part IH]; intros Hpart.
  - rewrite append_nil. simpl. by rewrite decide_True.
  - apply contains_char_cons in Hpart as [Hc Hpart]. rewrite append_cons. simpl.
    rewrite decide_False by done. by rewrite IH.
Qed.

Lemma split_one sep part :
  contains (String sep "") part = false → split sep part = [part].
Proof.
  induction part as [|c part IH]; intros Hpart; [done|].
  apply contains_char_cons in Hpart as [Hc Hpart]. simpl.
  rewrite decide_False by done. by rewrite IH.
Qed.

(** [s.split("-")] undoes ["-".join(parts)] when no part has a hyphen. *)
Lemma split_concat sep parts :
  parts ≠ [] →
  Forall (λ part, contains (String sep "") part = false) parts →
  split sep (String.concat (String sep "") parts) = parts.
Proof.
  induction parts as [|part parts IH]; [done|]. intros _ [Hpart Hparts]%Forall_cons.
  destruct parts as [|part' parts].
  - by apply split_one.
  - rewrite concat_cons2, append_cons, append_nil, split_app_sep by done.
    f_equal. by apply IH.
Qed.

(** X8: for an id made of parts joined by hyphens (no part has a hyphen of
    its own), the reference designator that [open_datasets] looks up is the
    first four parts joined by hyphens; an id of four parts or fewer is
    its own reference designator. *)
Theorem refdes_of_id_parts parts :
  parts ≠ [] →
  Forall (λ part, contains "-" part = false) parts →
  refdes_of_id (String.concat "-" parts) = String.concat "-" (take 4 parts).
Proof.
  intros Hne Hparts. unfold refdes_of_id.
  change "-"%string with (String (Ascii.ascii_of_nat 45) "").
  by rewrite split_concat.
Qed.

Lemma refdes_of_id_parts_example :
  refdes_of_id "CP03ISSM-SBD12-04-PCO2AA000-telemetered-pco2a_a_dcl_instrument_water"
  = "CP03ISSM-SBD12-04-PCO2AA000"%string.
Proof.
  apply (refdes_of_id_parts
    ["CP03ISSM"; "SBD12"; "04"; "PCO2AA000"; "telemetered"; "pco2a_a_dcl_instrument_water"]%string).
  - discriminate.
  - repeat constructor.
Defined.

Lemma concat_take_prefix sep n parts :
  ∃ rest, String.concat sep parts = String.concat sep (take n parts) +:+ rest.
Proof.
  revert n. induction parts as [|part parts IH]; intros n.
  - exists ""%string. by destruct n.
  - destruct n as [|n]; [by eexists|].
    destruct (IH n) as [rest Hrest].
    destruct parts as [|part' parts].
    + exists ""%string. destruct n; simpl; clear; induction part; simpl;
        rewrite ?append_cons, ?append_nil; congruence.
    + destruct n as [|n].
      * simpl. eexists. reflexivity.
      * exists rest. change (take (S (S n)) (part :: part' :: parts))
          with (part :: part' :: take n parts).
        change (take (S n) (part' :: parts)) with (part' :: take n parts) in Hrest.
        cbn [String.concat] in Hrest |- *. rewrite Hrest.
        by rewrite !append_assoc.
Qed.

Lemma split_parts_no_sep sep s :
  Forall (λ part, contains (String sep "") part = false) (split sep s).
Proof.
  induction s as [|c s IH]; [by repeat constructor|]. cbn [split]. case_decide as Hc.
  - constructor; [|done]. by destruct sep.
  - destruct (split sep s) as [|part parts] eqn:Hs; [by apply split_nonempty in Hs|].
    apply Forall_cons in IH as [Hpart Hparts]. constructor; [|done].
    by apply contains_char_cons.
Qed.

(** X9: for every id, the reference designator is a beginning of the id, and
    taking it as an id gives the same reference designator again. *)
Theorem refdes_of_id_prefix_idemp id :
  (∃ rest, id = refdes_of_id id +:+ rest) ∧
  refdes_of_id (refdes_of_id id) = refdes_of_id id.
Proof.
  split.
  - destruct (concat_take_prefix "-" 4 (split (Ascii.ascii_of_nat 45) id)) as [rest Hrest].
    exists rest. unfold refdes_of_id.
    etrans; [symmetry; apply (concat_split (Ascii.ascii_of_nat 45))|exact Hrest].
  - unfold refdes_of_id at 1 3.
    pose proof (split_nonempty (Ascii.ascii_of_nat 45) id) as Hne.
    pose proof (split_parts_no_sep (Ascii.ascii_of_nat 45) id) as Hparts.
    unfold refdes_of_id.
    change "-"%string with (String (Ascii.ascii_of_nat 45) "").
    rewrite split_concat.
    + by rewrite take_take, Nat.min_id.
    + by destruct (split (Ascii.ascii_of_nat 45) id).
    + by apply Forall_take.
Qed.

(** ** More on the deployment table and the trim *)

Lemma with_deployEnd_same r : with_deployEnd r (deployEnd r) = r.
Proof. by destruct r. Qed.

Lemma sort_values_sorted_id rows :
  StronglySorted (λ a b, deploymentNumber a ≤ deploymentNumber b) rows →
  sort_values rows = rows.
Proof.
  induction 1 as [|r rows Hs IH Hall]; [done|]. simpl. rewrite IH.
  destruct rows as [|r' rows]; [done|]. simpl.
  apply Forall_cons in Hall as [Hr _].
  by destruct (Z.leb_spec (deploymentNumber r) (deploymentNumber r')); [|lia].
Qed.

Lemma sorted_by_number rows :
  StronglySorted (λ a b, deploymentNumber a ≤ deploymentNumber b) rows
  ↔ StronglySorted Z.le (deploymentNumber <$> rows).
Proof.
  induction rows as [|r rows IH]; simpl.
  - split; constructor.
  - split; intros [Hs Hall]%StronglySorted_inv; constructor;
      try (by apply IH); by rewrite ?Forall_fmap in *.
Qed.

Lemma clip_deployEnd_sorted deployments :
  StronglySorted (λ a b, deploymentNumber a ≤ deploymentNumber b)
    (clip_deployEnd deployments).
Proof.
  apply sorted_by_number. rewrite clip_deployEnd_numbers.
  apply sorted_by_number, sort_values_sorted.
Qed.

Lemma clip_deployEnd_no_overlap deployments :
  (∀ i r n, sort_values deployments !! i = Some r →
            sort_values deployments !! S i = Some n →
            deployEnd r ≤ deployStart n) →
  clip_deployEnd deployments = sort_values deployments.
Proof.
  intros Hno. apply list_eq. intros i. rewrite clip_deployEnd_lookup.
  destruct (sort_values deployments !! i) as [r|] eqn:Hr; [|done]. simpl. f_equal.
  transitivity (with_deployEnd r (deployEnd r)); [|apply with_deployEnd_same].
  f_equal. unfold effectiveEnd.
  destruct (sort_values deployments !! S i) as [n|] eqn:Hn; [|done].
  specialize (Hno i r n Hr Hn).
  by destruct (Z.leb_spec (deployEnd r) (deployStart n)); [|lia].
Qed.

(** X10: clipping only ever shortens a deployment: the clipped table has the
    rows of the sorted table with the same numbers and starts, and no end
    is later than the recorded one. *)
Theorem clip_deployEnd_only_shortens deployments :
  deploymentNumber <$> clip_deployEnd deployments
    = deploymentNumber <$> sort_values deployments ∧
  deployStart <$> clip_deployEnd deployments
    = deployStart <$> sort_values deployments ∧
  Forall2 (λ r' r, deployEnd r' ≤ deployEnd r)
    (clip_deployEnd deployments) (sort_values deployments).
Proof.
  split_and!.
  - apply clip_deployEnd_numbers.
  - apply list_eq. intros i. rewrite !list_lookup_fmap, clip_deployEnd_lookup.
    by destruct (sort_values deployments !! i).
  - apply Forall2_same_length_lookup. split.
    + pose proof (f_equal length (clip_deployEnd_numbers deployments)) as Hlen.
      by rewrite !length_fmap in Hlen.
    + intros i r' r Hr' Hr. rewrite clip_deployEnd_lookup, Hr in Hr'.
      simpl in Hr'. simplify_eq. simpl. unfold effectiveEnd.
      destruct (sort_values deployments !! S i) as [n|]; [|lia].
      destruct (Z.leb_spec (deployEnd r) (deployStart n)); lia.
Qed.

(** X11: a table in which no deployment runs past the start of the next one
    (in the order of the deployment numbers) comes out of the clipping
    merely sorted. *)
Theorem clip_deployEnd_without_overlap deployments :
  (∀ i r n, sort_values deployments !! i = Some r →
            sort_values deployments !! S i = Some n →
            deployEnd r ≤ deployStart n) →
  clip_deployEnd deployments = sort_values deployments.
Proof. apply clip_deployEnd_no_overlap. Qed.

Lemma clip_deployEnd_without_overlap_example :
  clip_deployEnd [mkDeployment 2 20 40; mkDeployment 1 0 20]
  = [mkDeployment 1 0 20; mkDeployment 2 20 40].
Proof.
  apply (clip_deployEnd_without_overlap [mkDeployment 2 20 40; mkDeployment 1 0 20]).
  intros [|[|i]] r n Hr Hn; simpl in *; simplify_eq; simpl; lia.
Defined.

(** X12: clipping a clipped table changes nothing, so it does not matter
    that [trim_overlaps] clips the table again for every file. *)
Theorem clip_deployEnd_idempotent deployments :
  clip_deployEnd (clip_deployEnd deployments) = clip_deployEnd deployments.
Proof.
  rewrite clip_deployEnd_no_overlap;
    rewrite sort_values_sorted_id by apply clip_deployEnd_sorted; [done|].
  intros i r' n' Hr' Hn'. rewrite clip_deployEnd_lookup in Hr', Hn'.
  destruct (sort_values deployments !! i) as [r|]; [|done].
  destruct (sort_values deployments !! S i) as [n|]; [|done].
  simpl in Hr', Hn'. simplify_eq. simpl.
  destruct (Z.leb_spec (deployEnd r) (deployStart n)); lia.
Qed.

(** X13: a successful trim only drops samples: what it returns is the
    dataset with some rows left out, the others as they were and in the
    same order. *)
Theorem trim_overlaps_sublist {V} (ds ds' : list (Sample V)) deployments :
  trim_overlaps ds deployments = Ok ds' → ds' `sublist_of` ds.
Proof.
  intros (d & start & stop & _ & _ & _ & ->)%trim_overlaps_inv.
  unfold sel_time. etrans; [apply sublist_take|apply sublist_drop].
Qed.

Lemma trim_overlaps_sublist_example :
  [mkSample 10 1 100; mkSample 20 1 101] `sublist_of` ex_boundary_ds.
Proof. apply (trim_overlaps_sublist _ _ ex_deployments). reflexivity. Defined.

(** X14: the trim fails with [IndexError] exactly on a dataset without
    samples, whatever the deployment table is. *)
Theorem trim_overlaps_IndexError {V} (ds : list (Sample V)) deployments :
  trim_overlaps ds deployments = Err IndexError ↔ ds = [].
Proof.
  split; [|by intros ->].
  unfold trim_overlaps. rewrite loc_spec. case_decide as Hall; [|done].
  destruct (np_unique (deployment <$> ds)) as [|d rest] eqn:Hd.
  - intros _. apply (proj1 (np_unique_nil _)) in Hd. by apply fmap_nil_inv in Hd.
  - apply Forall_cons in Hall as [Hdrow _]. simpl.
    by destruct (filter _ (clip_deployEnd deployments)).
Qed.

Lemma trim_overlaps_IndexError_example :
  trim_overlaps (V:=Z) [] ex_deployments = Err IndexError.
Proof. by apply trim_overlaps_IndexError. Defined.

(** ** More on the merge cells *)

Section MergeMore.
Context {V : Type}.
Implicit Types (a b donor target : Dataset V) (w : Workspace V).

Lemma Dataset_eq a b :
  time_index a = time_index b → variables a = variables b → a = b.
Proof. destruct a, b. simpl. by intros -> ->. Qed.

(** A target that has every variable of the donor is left alone. *)
Lemma broadcast_missing_id donor target :
  dom (variables donor) ⊆ dom (variables target) →
  broadcast_missing donor target = target.
Proof.
  intros Hdom. apply Dataset_eq; [apply broadcast_missing_time_index|].
  apply map_eq. intros var. rewrite broadcast_missing_lookup.
  destruct (variables target !! var) as [col|] eqn:Hvar; [done|].
  destruct (variables donor !! var) as [col|] eqn:Hdonor; [|done].
  exfalso. apply not_elem_of_dom in Hvar. apply Hvar, Hdom, elem_of_dom. eauto.
Qed.

Lemma union_subseteq_r_id (c1 c2 : gmap Z V) : c2 ⊆ c1 → c1 ∪ c2 = c1.
Proof.
  intros Hsub. apply map_eq. intros t. rewrite lookup_union.
  destruct (c1 !! t) as [x|] eqn:H1, (c2 !! t) as [y|] eqn:H2; try done.
  eapply lookup_weaken in H2; [|done]. congruence.
Qed.

Lemma combine_first_idemp a : combine_first a a = a.
Proof.
  apply Dataset_eq; simpl.
  - apply set_eq. intros t. rewrite elem_of_union. tauto.
  - apply map_eq. intros var. rewrite lookup_union_with.
    destruct (variables a !! var) as [col|]; simpl; [|done].
    by rewrite union_subseteq_r_id.
Qed.

Lemma merge_rerun w : merge (merge w).1 = merge w.
Proof.
  unfold merge. cbv zeta. cbn [fst tele_data host_data inst_data].
  set (host' := broadcast_missing (tele_data w) (host_data w)).
  set (tele' := broadcast_missing host' (tele_data w)).
  assert (broadcast_missing tele' host' = host') as ->.
  { apply broadcast_missing_id. subst tele' host'. rewrite !broadcast_missing_dom.
    intros x. rewrite !elem_of_union. tauto. }
  assert (broadcast_missing host' tele' = tele') as ->.
  { apply broadcast_missing_id. subst tele' host'. rewrite !broadcast_missing_dom.
    intros x. rewrite !elem_of_union. tauto. }
  set (tele_host := combine_first tele' host').
  set (inst' := broadcast_missing tele_host (inst_data w)).
  assert (broadcast_missing tele_host inst' = inst') as ->; [|reflexivity].
  apply broadcast_missing_id. subst inst'. rewrite broadcast_missing_dom.
  intros x. rewrite !elem_of_union. tauto.
Qed.

Lemma merge_same a :
  merge {| tele_data := a; host_data := a; inst_data := a |}
  = ({| tele_data := a; host_data := a; inst_data := a |}, a).
Proof.
  unfold merge. cbv zeta. cbn [tele_data host_data inst_data].
  repeat first [rewrite (broadcast_missing_id a a) by done | rewrite combine_first_idemp].
  reflexivity.
Qed.

Lemma covers_cell b a var t :
  covers b a → cell b var t = None → cell a var t = None.
Proof.
  intros [_ Hcov]. unfold cell.
  destruct (variables a !! var) as [col|] eqn:Ha; [|done].
  destruct (Hcov _ _ Ha) as [[col' Hb] Hdom]. rewrite Hb in Hdom |- *. simpl in *.
  intros Ht. apply not_elem_of_dom. apply not_elem_of_dom in Ht. auto.
Qed.

Lemma covers_dom b a : covers b a → dom (variables a) ⊆ dom (variables b).
Proof.
  intros [_ Hcov] var [col Ha]%elem_of_dom.
  destruct (Hcov _ _ Ha) as [Hb _]. by apply elem_of_dom.
Qed.

Lemma merge_covered (w : Workspace V) :
  covers (inst_data w) (tele_data w) →
  covers (inst_data w) (host_data w) →
  (merge w).2 = inst_data w ∧ inst_data (merge w).1 = inst_data w.
Proof.
  intros Htele Hhost.
  pose proof (covers_dom _ _ Htele) as Hdt.
  pose proof (covers_dom _ _ Hhost) as Hdh.
  split.
  - apply Dataset_eq.
    + rewrite merge_time_index. destruct Htele as [Ht _], Hhost as [Hh _].
      apply set_eq. intros t. rewrite !elem_of_union.
      specialize (Ht t). specialize (Hh t). tauto.
    + apply map_eq. intros var.
      assert (is_Some (variables (merge w).2 !! var)
              ↔ is_Some (variables (inst_data w) !! var)) as Hdom.
      { rewrite <-!elem_of_dom, merge_dom, !elem_of_union.
        specialize (Hdt var). specialize (Hdh var). tauto. }
      destruct (variables (merge w).2 !! var) as [c'|] eqn:E1,
               (variables (inst_data w) !! var) as [c|] eqn:E2.
      * f_equal. apply map_eq. intros t.
        pose proof (cell_merge w var t) as Hcell.
        pose proof (covers_cell _ _ var t Htele) as Hct.
        pose proof (covers_cell _ _ var t Hhost) as Hch.
        unfold cell in Hcell, Hct, Hch. rewrite E1, E2 in Hcell.
        rewrite E2 in Hct, Hch. simpl in Hcell, Hct, Hch.
        rewrite Hcell. destruct (c !! t) as [x|]; [done|]. simpl.
        by rewrite Hct, Hch.
      * destruct (proj1 Hdom) as [? [=]]. by eexists.
      * destruct (proj2 Hdom) as [? [=]]. by eexists.
      * done.
  - unfold merge. cbn [fst inst_data].
    apply broadcast_missing_id.
    rewrite combine_first_dom, !broadcast_missing_dom.
    intros var. rewrite !elem_of_union.
    specialize (Hdt var). specialize (Hdh var). tauto.
Qed.
End MergeMore.

(** X15: the merged dataset covers the datasets it is made of: its time
    index is the union of the three time indexes and its variables are the
    union of the three sets of variable names. *)
Theorem merge_covers_union {V} (w : Workspace V) :
  time_index (merge w).2
    = time_index (inst_data w) ∪ (time_index (tele_data w) ∪ time_index (host_data w)) ∧
  dom (variables (merge w).2)
    = dom (variables (inst_data w)) ∪
      (dom (variables (tele_data w)) ∪ dom (variables (host_data w))).
Proof. split; [apply merge_time_index|apply merge_dom]. Qed.

(** X16: when every column of the three datasets lives on the time index of
    its dataset, the same holds for the merged dataset and for the three
    datasets as the merge leaves them. *)
Theorem merge_keeps_well_formed {V} (w : Workspace V) :
  well_formed (tele_data w) → well_formed (host_data w) → well_formed (inst_data w) →
  well_formed (merge w).2 ∧
  well_formed (tele_data (merge w).1) ∧
  well_formed (host_data (merge w).1) ∧
  well_formed (inst_data (merge w).1).
Proof.
  intros Ht Hh Hi. split; [by apply merge_well_formed|].
  unfold merge. cbv zeta. cbn [fst tele_data host_data inst_data].
  split_and!; by apply broadcast_missing_well_formed.
Qed.

Lemma merge_keeps_well_formed_example :
  well_formed (merge ex_workspace).2 ∧
  well_formed (tele_data (merge ex_workspace).1) ∧
  well_formed (host_data (merge ex_workspace).1) ∧
  well_formed (inst_data (merge ex_workspace).1).
Proof.
  apply (merge_keeps_well_formed ex_workspace);
    apply (bool_decide_unpack _); by vm_compute.
Defined.

(** X17: running the merge cells a second time, on the datasets as the first
    run left them, changes none of the three datasets any more and yields
    the same merged dataset. *)
Theorem merge_second_run {V} (w : Workspace V) :
  merge (merge w).1 = merge w.
Proof. apply merge_rerun. Qed.

(** X18: on non-empty time indexes, when the recovered_inst dataset has a
    value wherever the telemetered or the recovered_host dataset has one,
    the merged dataset is the recovered_inst dataset and the alignment loops
    leave the recovered_inst dataset as it was; when the three datasets are
    the same, none of them is changed. *)
Theorem merge_of_covered_sources {V} (w : Workspace V) :
  time_index (tele_data w) ≠ ∅ →
  time_index (host_data w) ≠ ∅ →
  covers (inst_data w) (tele_data w) →
  covers (inst_data w) (host_data w) →
  (merge w).2 = inst_data w ∧
  inst_data (merge w).1 = inst_data w ∧
  (tele_data w = inst_data w → host_data w = inst_data w → (merge w).1 = w).
Proof.
  intros _ _ Htele Hhost.
  destruct (merge_covered w Htele Hhost) as [Hdata Hinst].
  split_and!; [done..|].
  destruct w as [tele host inst]. cbn [tele_data host_data inst_data].
  intros -> ->. by rewrite merge_same.
Qed.

Lemma merge_of_covered_sources_example :
  (merge {| tele_data := ex_host; host_data := ex_inst; inst_data := ex_tele |}).2
  = ex_tele.
Proof.
  refine (proj1 (merge_of_covered_sources
    {| tele_data := ex_host; host_data := ex_inst; inst_data := ex_tele |} _ _ _ _)).
  - apply (bool_decide_unpack _). by vm_compute.
  - apply (bool_decide_unpack _). by vm_compute.
  - apply (bool_decide_unpack _). by vm_compute.
  - apply (bool_decide_unpack _). by vm_compute.
Defined.

(** ** Trimmed datasets of successive deployments *)

Lemma clip_deployEnd_end_le_start deployments i j ri rj :
  StronglySorted Z.le (deployStart <$> sort_values deployments) →
  (i < j)%nat →
  clip_deployEnd deployments !! i = Some ri →
  clip_deployEnd deployments !! j = Some rj →
  deployEnd ri ≤ deployStart rj.
Proof.
  intros Hstarts Hij Hi Hj. rewrite clip_deployEnd_lookup in Hi, Hj.
  destruct (sort_values deployments !! i) as [r|] eqn:Hri; [|done].
  destruct (sort_values deployments !! j) as [r'|] eqn:Hrj; [|done].
  simpl in Hi, Hj. simplify_eq.
  destruct (sort_values deployments !! S i) as [n|] eqn:Hn.
  2:{ apply lookup_ge_None in Hn. apply lookup_lt_Some in Hrj. lia. }
  assert (deployStart n ≤ deployStart r') as Hle.
  { eapply (StronglySorted_lookup_le _ (S i) j); [done|lia|..];
      rewrite list_lookup_fmap; [by rewrite Hn|by rewrite Hrj]. }
  simpl. destruct (Z.leb_spec (deployEnd r) (deployStart n)); lia.
Qed.

Lemma owned_interval_row deployments d start stop :
  owned_interval deployments d = Some (start, stop) →
  ∃ i r, clip_deployEnd deployments !! i = Some r ∧ deploymentNumber r = d ∧
         deployStart r = start ∧ deployEnd r = stop.
Proof.
  unfold owned_interval.
  destruct (filter _ (clip_deployEnd deployments)) as [|r found] eqn:Hf; [done|].
  intros [= <- <-].
  assert (r ∈ filter (λ r, deploymentNumber r = d) (clip_deployEnd deployments)) as Hr
    by (rewrite Hf; left).
  apply list_elem_of_filter in Hr as [Hd [i Hi]%list_elem_of_lookup]. eauto 6.
Qed.

(** X19: with starts that do not decrease along the deployment numbers, the
    trimmed dataset of a deployment lies entirely before the trimmed
    dataset of a deployment with a greater number (a shared boundary
    instant apart), so the two can be put one after the other in a
    monotonic time index. *)
Theorem trim_overlaps_concat_monotonic {V} (ds1 ds2 ds1' ds2' : list (Sample V))
    deployments d1 d2 :
  StronglySorted Z.le (deployStart <$> sort_values deployments) →
  monotonic ds1 → monotonic ds2 →
  head (np_unique (deployment <$> ds1)) = Some d1 →
  head (np_unique (deployment <$> ds2)) = Some d2 →
  d1 < d2 →
  trim_overlaps ds1 deployments = Ok ds1' →
  trim_overlaps ds2 deployments = Ok ds2' →
  monotonic (ds1' ++ ds2').
Proof.
  intros Hstarts Hm1 Hm2 Hd1 Hd2 Hlt
    (d1' & a1 & b1 & Hd1' & _ & Hint1 & ->)%trim_overlaps_inv
    (d2' & a2 & b2 & Hd2' & _ & Hint2 & ->)%trim_overlaps_inv.
  assert (d1' = d1) as -> by congruence. assert (d2' = d2) as -> by congruence.
  apply owned_interval_row in Hint1 as (i & r1 & Hi & Hn1 & <- & <-).
  apply owned_interval_row in Hint2 as (j & r2 & Hj & Hn2 & <- & <-).
  assert (i < j)%nat as Hij.
  { destruct (decide (i < j)%nat) as [|Hge]; [done|]. exfalso.
    pose proof (clip_deployEnd_sorted deployments) as Hs.
    apply sorted_by_number in Hs.
    assert (deploymentNumber r2 ≤ deploymentNumber r1); [|lia].
    eapply (StronglySorted_lookup_le _ j i); [done|lia|..];
      rewrite list_lookup_fmap; [by rewrite Hj|by rewrite Hi]. }
  pose proof (clip_deployEnd_end_le_start _ _ _ _ _ Hstarts Hij Hi Hj) as Hle.
  rewrite !sel_time_filter by done. unfold monotonic. rewrite fmap_app.
  apply StronglySorted_app_2; [|by apply monotonic_filter..].
  intros t1 t2 (s1 & -> & [[_ ?] _]%list_elem_of_filter)%list_elem_of_fmap
               (s2 & -> & [[? _] _]%list_elem_of_filter)%list_elem_of_fmap.
  lia.
Qed.

Lemma trim_overlaps_concat_monotonic_example :
  monotonic
    ([mkSample 10 1 100; mkSample 20 1 101] ++ [mkSample 20 2 200; mkSample 30 2 201]).
Proof.
  apply (trim_overlaps_concat_monotonic ex_boundary_ds
           [mkSample 20 2 200; mkSample 30 2 201; mkSample 41 2 202] _ _ ex_deployments 1 2).
  - vm_compute. repeat constructor; discriminate.
  - unfold monotonic. simpl. repeat constructor; lia.
  - unfold monotonic. simpl. repeat constructor; lia.
  - reflexivity.
  - reflexivity.
  - lia.
  - reflexivity.
  - reflexivity.
Defined.

(** ** Loading the datastreams *)

Lemma match_catalog_contains s :
  match_catalog s = true → contains "html?dataset=" s = true.
Proof.
  unfold match_catalog. intros [[_ _]%andb_true_iff Hsub%String.eqb_eq]%andb_true_iff.
  do 8 (destruct s as [|? s]; [done|]).
  cbn [String.substring] in Hsub.
  assert (contains "html?dataset=" s = true) as Hp.
  { apply contains_spec. exists ""%string. apply prefix_spec.
    apply String.prefix_correct. exact Hsub. }
  cbn [contains]. rewrite Hp. by rewrite !orb_true_r.
Qed.

Lemma re_sub_from_unfold repl s :
  re_sub_from 0 repl s =
    match s with
    | EmptyString => EmptyString
    | String c s' =>
        if match_catalog s then repl +:+ re_sub_from 20 repl s'
        else String c (re_sub_from 0 repl s')
    end.
Proof. by destruct s. Qed.

Lemma re_sub_from_no_match repl s :
  contains "html?dataset=" s = false → re_sub_from 0 repl s = s.
Proof.
  induction s as [|c s IH]; [done|]. intros Hs. cbn [re_sub_from].
  destruct (match_catalog (String c s)) eqn:Hm.
  - apply match_catalog_contains in Hm. congruence.
  - f_equal. apply IH. cbn [contains] in Hs. by apply orb_false_iff in Hs as [_ ?].
Qed.

(** X20: an entry that is the catalog prefix followed by a path becomes the
    replacement followed by the path; the dot of the pattern is a wildcard,
    so any character but a newline may stand in its place. An entry without
    [html?dataset=] in it is left as it is. *)
Theorem re_sub_catalog_entry repl (c : Ascii.ascii) path :
  contains "\" repl = false →
  c ≠ Ascii.ascii_of_nat 10 →
  contains "html?dataset=" path = false →
  re_sub_catalog repl ("catalog" +:+ String c ("html?dataset=" +:+ path)) = repl +:+ path ∧
  re_sub_catalog repl path = path.
Proof.
  intros _ Hc Hpath. unfold re_sub_catalog. split; [|by apply re_sub_from_no_match].
  assert (match_catalog ("catalog" +:+ String c ("html?dataset=" +:+ path)) = true) as Hm.
  { unfold match_catalog. rewrite !append_cons, !append_nil.
    cbn [String.prefix String.get String.substring].
    destruct (Ascii.eqb_spec c (Ascii.ascii_of_nat 10)); [done|].
    by destruct path. }
  assert (re_sub_from 20 repl ("atalog" +:+ String c ("html?dataset=" +:+ path))
          = re_sub_from 0 repl path) as Hskip.
  { rewrite !append_cons, !append_nil. reflexivity. }
  rewrite append_cons in Hm |- *. rewrite re_sub_from_unfold, Hm, Hskip.
  f_equal. by apply re_sub_from_no_match.
Qed.

Lemma re_sub_catalog_entry_example :
  re_sub_catalog "https://opendap.oceanobservatories.org/thredds/dodsC/"
    "catalog.html?dataset=ooi/deployment0001_CP03ISSM.nc"
  = "https://opendap.oceanobservatories.org/thredds/dodsC/ooi/deployment0001_CP03ISSM.nc"%string.
Proof.
  refine (proj1 (re_sub_catalog_entry
    "https://opendap.oceanobservatories.org/thredds/dodsC/" (Ascii.ascii_of_nat 46)
    "ooi/deployment0001_CP03ISSM.nc" _ _ _)); [reflexivity|discriminate|reflexivity].
Defined.

Lemma load_datastreams_app {D} (catalog_of : bool → Datastream → list string)
    (goldCopy_dodsC dodsC : string) (open_mfdataset : list string → option D)
    (l1 l2 : list Datastream) (loaded : Loading.Loaded) :
  Loading.load_datastreams catalog_of goldCopy_dodsC dodsC open_mfdataset (l1 ++ l2) loaded
  = loaded' ← Loading.load_datastreams catalog_of goldCopy_dodsC dodsC open_mfdataset l1 loaded;
    Loading.load_datastreams catalog_of goldCopy_dodsC dodsC open_mfdataset l2 loaded'.
Proof.
  revert loaded. induction l1 as [|d l1 IH]; intros loaded; [done|]. simpl.
  destruct (Loading.load_stream _ _ _ _ loaded d); simpl; [apply IH|done].
Qed.

(** X21: when the loading loop runs through, [tele_data] is the dataset
    opened from the files of the last telemetered datastream of the table
    and [host_data] that of the last recovered_host datastream: a
    datastream loaded earlier for the same method is overwritten,
    datastreams of any other method are not loaded, and a name keeps what
    it had before the loop when the table has no datastream of its
    method. *)
Theorem load_datastreams_last {D} (catalog_of : bool → Datastream → list string)
    (goldCopy_dodsC dodsC : string) (open_mfdataset : list string → option D)
    (datastreams : list Datastream) (loaded after : Loading.Loaded) :
  Loading.load_datastreams catalog_of goldCopy_dodsC dodsC open_mfdataset
    datastreams loaded = Some after →
  let opened d := open_mfdataset (Loading.files_of catalog_of goldCopy_dodsC dodsC d) in
  Loading.tele_data after =
    match last (filter (λ d, method d = "telemetered"%string) datastreams) with
    | Some d => opened d
    | None => Loading.tele_data loaded
    end ∧
  Loading.host_data after =
    match last (filter (λ d, method d = "recovered_host"%string) datastreams) with
    | Some d => opened d
    | None => Loading.host_data loaded
    end.
Proof.
  intros Hload opened. revert after Hload.
  induction datastreams as [|d datastreams IH] using rev_ind; intros after Hload.
  { simpl in Hload. by simplify_eq. }
  rewrite load_datastreams_app in Hload.
  destruct (Loading.load_datastreams _ _ _ _ datastreams loaded) as [mid|]; [|done].
  destruct (IH mid eq_refl) as [IHt IHh]. simpl in Hload.
  rewrite !filter_app, !filter_cons, !filter_nil.
  unfold Loading.load_stream in Hload.
  destruct (decide (method d = "telemetered"%string)) as [Ht|Ht].
  - rewrite (decide_False (P := method d = "recovered_host"%string)) by congruence.
    rewrite last_snoc, app_nil_r.
    destruct (open_mfdataset _) as [ds|] eqn:Hopen; simpl in Hload; [|done].
    simplify_eq. simpl. by subst opened.
  - destruct (decide (method d = "recovered_host"%string)) as [Hh|Hh].
    + rewrite last_snoc, app_nil_r.
      destruct (open_mfdataset _) as [ds|] eqn:Hopen; simpl in Hload; [|done].
      simplify_eq. simpl. by subst opened.
    + simpl in Hload. simplify_eq. by rewrite !app_nil_r.
Qed.

Lemma load_datastreams_last_example :
  let catalog_of (gold : bool) (d : Datastream) :=
    if gold then [] else ["catalog.html?dataset=" +:+ stream d +:+ ".nc"] in
  let after :=
    {| Loading.tele_data := Some ["D/pco2a_water_2.nc"%string];
       Loading.host_data := None |} in
  Loading.tele_data after = Some ["D/pco2a_water_2.nc"%string] ∧
  Loading.host_data after = None.
Proof.
  intros catalog_of after.
  apply (load_datastreams_last catalog_of "G/" "D/" Some
    [mkDatastream "R" "telemetered" "pco2a_water_1";
     mkDatastream "R" "recovered_inst" "pco2a_inst";
     mkDatastream "R" "telemetered" "pco2a_water_2"]
    {| Loading.tele_data := None; Loading.host_data := None |} after).
  reflexivity.
Defined.

(** ** When the single-pass loop does clear the catalog *)

Lemma for_remove_blank_no_adjacent fuel front back :
  Forall (λ f, contains "blank" f = false) front →
  (∀ i x y, back !! i = Some x → back !! S i = Some y →
            contains "blank" x = true → contains "blank" y = false) →
  (length back ≤ fuel)%nat →
  for_remove_blank fuel (length front) (front ++ back)
  = Finished (front ++ filter (λ f, contains "blank" f = false) back).
Proof.
  revert front back. induction fuel as [|fuel IH]; intros front back Hfront Hadj Hlen.
  - destruct back; [|simpl in Hlen; lia]. simpl.
    by rewrite lookup_ge_None_2 by (rewrite length_app; simpl; lia).
  - destruct back as [|x back].
    { simpl. by rewrite lookup_ge_None_2 by (rewrite length_app; simpl; lia). }
    rewrite (for_remove_blank_step _ _ _ x) by by apply list_lookup_middle.
    rewrite filter_cons. destruct (contains "blank" x) eqn:Hx.
    + rewrite decide_False by done.
      rewrite list_remove_app.
      2:{ intros Hin. rewrite Forall_forall in Hfront. apply Hfront in Hin. congruence. }
      destruct back as [|y back].
      { destruct fuel; simpl; by rewrite lookup_ge_None_2 by (rewrite length_app; simpl; lia). }
      pose proof (Hadj 0%nat x y eq_refl eq_refl Hx) as Hy.
      rewrite filter_cons_True by done.
      specialize (IH (front ++ [y]) back). rewrite length_app in IH. simpl in IH.
      rewrite Nat.add_1_r, <-!(assoc_L (++)) in IH. simpl in IH. apply IH.
      * apply Forall_app. split; [done|]. by constructor.
      * intros i a b Ha Hb. by apply (Hadj (S (S i))).
      * simpl in Hlen. lia.
    + rewrite decide_True by done.
      specialize (IH (front ++ [x]) back). rewrite length_app in IH. simpl in IH.
      rewrite Nat.add_1_r, <-!(assoc_L (++)) in IH. simpl in IH. apply IH.
      * apply Forall_app. split; [done|]. by constructor.
      * intros i a b Ha Hb. by apply (Hadj (S i)).
      * simpl in Hlen. lia.
Qed.

(** X22: when no entry with [blank] in it is directly followed by another
    one, the single-pass loop does return the catalog without its [blank]
    entries, the others in their order. *)
Theorem remove_blank_datasets_no_adjacent catalog :
  (∀ i x y, catalog !! i = Some x → catalog !! S i = Some y →
            contains "blank" x = true → contains "blank" y = false) →
  remove_blank_datasets catalog
  = Finished (filter (λ f, contains "blank" f = false) catalog).
Proof.
  intros Hadj. apply (for_remove_blank_no_adjacent (length catalog) [] catalog); done.
Qed.

Lemma remove_blank_datasets_no_adjacent_example :
  remove_blank_datasets
    ["deployment0001_blank.nc"; "deployment0001_water.nc"; "deployment0002_blank.nc";
     "deployment0002_water.nc"]%string
  = Finished ["deployment0001_water.nc"; "deployment0002_water.nc"]%string.
Proof.
  apply (remove_blank_datasets_no_adjacent
    ["deployment0001_blank.nc"; "deployment0001_water.nc"; "deployment0002_blank.nc";
     "deployment0002_water.nc"]%string).
  intros [|[|[|[|i]]]] x y Hx Hy Hblank; simpl in *; simplify_eq; done.
Defined.
